(** * PoetryHub: the REST handlers of [server/index.js] over a document store

    The three Mongoose collections (users, poems, comments) are finite maps
    from [_id] to document; every route handler is a function from the store
    to a response and a new store.

    - Requests are served one after the other and the storage does not
      fail; what a handler's [catch] receives is a validation error, a
      duplicate key, a type error or an error of the database.
    - An identifier is a rendering of an ObjectId; the store keeps a
      document under the canonical rendering, in lower case, which is also
      what a token and a reference inside a document carry.  A route that
      only hands the identifier of its path to a query has it cast there,
      and is modelled at the canonical rendering.  The follow route also
      compares the identifier of its path as it was written, with [===] and
      with [includes]; there the path identifier is any rendering and the
      cast is explicit.
    - What the environment chooses (the identifier of a new document, the
      clock, the outcome of [bcrypt.hash] and of [jwt.verify], the name of
      an uploaded file) is an argument of the request.
    - Numbers are integers; string-valued fields of a request are strings
      that may be absent.
    - [updatedAt] and the version key, which no handler reads, are left
      out of the documents. *)

From Stdlib Require Import ZArith Ascii String.
From stdpp Require Import gmap strings list fin_maps sorting.

Open Scope Z_scope.

Abbreviation ObjectId := string.

(** ** Schemas *)

Module User.
Record t := mk {
  username : string;
  email : string;
  password : string;
  bio : string;
  avatar_url : string;
  followers : list ObjectId;
  following : list ObjectId;
  createdAt : Z
}.
End User.

Module Poem.
Record t := mk {
  title : string;
  content : string;
  author : ObjectId;
  category : string;
  tags : list string;
  image_url : string;
  likes : list ObjectId;
  likes_count : Z;
  comments_count : Z;
  is_featured : bool;
  createdAt : Z
}.
End Poem.

Module Comment.
Record t := mk {
  poem : ObjectId;
  author : ObjectId;
  content : string;
  parent : option ObjectId;
  replies : list ObjectId;
  createdAt : Z
}.
End Comment.

Record Db := mkDb {
  users : gmap string User.t;
  poems : gmap string Poem.t;
  comments : gmap string Comment.t
}.

(** ** JavaScript and Mongoose helpers *)

(** Truthiness of a string-valued request field that may be absent. *)
Definition truthy (v : option string) : bool :=
  match v with
  | Some s => negb (bool_decide (s = ""))
  | None => false
  end.

(** [v || d] *)
Definition or_else (v : option string) (d : string) : string :=
  match v with
  | Some s => if bool_decide (s = "") then d else s
  | None => d
  end.

(** [s.split(sep)] for a one-character separator. *)
Fixpoint split_go (sep : ascii) (cur : string) (s : string) : list string :=
  match s with
  | EmptyString => [String.rev cur]
  | String a s' =>
      if bool_decide (a = sep)
      then String.rev cur :: split_go sep EmptyString s'
      else split_go sep (String a cur) s'
  end.

Definition split (sep : ascii) (s : string) : list string :=
  split_go sep EmptyString s.

Fixpoint trimStart (s : string) : string :=
  match s with
  | EmptyString => EmptyString
  | String a s' => if Ascii.is_space a then trimStart s' else s
  end.

(** [s.trim()] on the ASCII white space characters. *)
Definition trim (s : string) : string :=
  String.rev (trimStart (String.rev (trimStart s))).

(** [tags.split(',').map(tag => tag.trim())] *)
Definition parse_tags (tags : string) : list string :=
  trim <$> split "," tags.

(** [arr.includes(v)] *)
Definition includes (arr : list ObjectId) (v : ObjectId) : bool :=
  bool_decide (v ∈ arr).

(** [arr.pull(v)]: every element equal to [v] is removed. *)
Definition pull (arr : list ObjectId) (v : ObjectId) : list ObjectId :=
  filter (λ x, x ≠ v) arr.

(** [arr.push(v)] *)
Definition push (arr : list ObjectId) (v : ObjectId) : list ObjectId :=
  arr ++ [v].

(** ** Responses *)

(** What the [catch] branch of a handler can receive. *)
Inductive Exception :=
  | ValidationError
  | DuplicateKey
  | TypeError
  | RegExpError
  | MongoError.

(** A reference replaced by [populate]: the selected fields of the user. *)
Record AuthorJson := mkAuthor {
  author_id : ObjectId;
  author_username : string;
  author_avatar_url : option string
}.

Record UserJson := mkUserJson {
  user_id : ObjectId;
  user_username : string;
  user_email : string;
  user_bio : string;
  user_avatar_url : string;
  user_created_at : Z
}.

(** A poem document as sent: [author] is [None] when the user is missing. *)
Record PoemJson := mkPoemJson {
  poem_id : ObjectId;
  poem_doc : Poem.t;
  poem_author : option AuthorJson
}.

(** A populated entry of [replies]: its own [replies] remain identifiers. *)
Record ReplyJson := mkReplyJson {
  reply_id : ObjectId;
  reply_doc : Comment.t;
  reply_author : option AuthorJson
}.

Record CommentJson := mkCommentJson {
  comment_id : ObjectId;
  comment_doc : Comment.t;
  comment_author : option AuthorJson;
  comment_replies : list ReplyJson
}.

Inductive Body :=
  | Error (error : string)
  | Caught (error : Exception)
  | Message (message : string)
  | AuthResult (token : ObjectId) (user : UserJson)
  | LikeResult (liked : bool) (likes_count : Z)
  | FollowResult (following : bool)
  | OnePoem (poem : PoemJson)
  | Poems (poems : list PoemJson)
  | OneComment (comment : CommentJson)
  | Comments (comments : list CommentJson).

Record Response := res { status : Z; json : Body }.

(** [.populate('author', 'username')] and
    [.populate('author', 'username avatar_url')] *)
Definition populate_author (avatar : bool) (db : Db) (id : ObjectId) : option AuthorJson :=
  match users db !! id with
  | Some u => Some (mkAuthor id (User.username u)
                      (if avatar then Some (User.avatar_url u) else None))
  | None => None
  end.

(** ** Authentication middleware *)

(** What [authenticateToken] finds in the request: no bearer token, a token
    that [jwt.verify] refuses, or a token whose payload carries [userId]. *)
Inductive Authorization :=
  | NoToken
  | InvalidToken
  | Bearer (userId : ObjectId).

Definition authenticateToken (auth : Authorization)
    (next : ObjectId → Db → Response * Db) (db : Db) : Response * Db :=
  match auth with
  | NoToken => (res 401 (Error "Access token required"), db)
  | InvalidToken => (res 403 (Error "Invalid token"), db)
  | Bearer userId => next userId db
  end.

(** ** POST /api/auth/register

    [hashed] is what [bcrypt.hash] returned, [_id] the identifier Mongoose
    gave the new document and [now] the clock.  The token is represented by
    the [userId] of its payload. *)

Definition user_exists (email username : string) (db : Db) : bool :=
  bool_decide (map_Exists (λ _ u, User.email u = email ∨ User.username u = username)
                          (users db)).

Definition post_register (username email hashed : string) (_id : ObjectId) (now : Z)
    (db : Db) : Response * Db :=
  if user_exists email username db
  then (res 400 (Error "User already exists"), db)
  else if negb (truthy (Some username) && truthy (Some email) && truthy (Some hashed))
  then (res 500 (Caught ValidationError), db)
  else match users db !! _id with
  | Some _ => (res 500 (Caught DuplicateKey), db)
  | None =>
      let user := User.mk username email hashed "" "" [] [] now in
      (res 201 (AuthResult _id (mkUserJson _id username email "" "" now)),
       mkDb (<[_id := user]> (users db)) (poems db) (comments db))
  end.

(** ** POST /api/poems

    [file] is the name under which multer stored an accepted image. *)

Definition post_poem (title content category tags file : option string)
    (_id : ObjectId) (now : Z) (userId : ObjectId) (db : Db) : Response * Db :=
  if negb (truthy title && truthy content && truthy category)
  then (res 500 (Caught ValidationError), db)
  else match poems db !! _id with
  | Some _ => (res 500 (Caught DuplicateKey), db)
  | None =>
      let poem :=
        Poem.mk (default "" title) (default "" content) userId (default "" category)
          (match tags with
           | Some t => if truthy tags then parse_tags t else []
           | None => []
           end)
          (match file with
           | Some filename => "/uploads/" +:+ filename
           | None => ""
           end)
          [] 0 0 false now in
      (res 201 (OnePoem (mkPoemJson _id poem (populate_author false db userId))),
       mkDb (users db) (<[_id := poem]> (poems db)) (comments db))
  end.

(** ** PUT /api/poems/:id *)

Definition edit_poem (title content category tags : option string) (poem : Poem.t) : Poem.t :=
  Poem.mk (or_else title (Poem.title poem))
          (or_else content (Poem.content poem))
          (Poem.author poem)
          (or_else category (Poem.category poem))
          (match tags with
           | Some t => if truthy tags then parse_tags t else Poem.tags poem
           | None => Poem.tags poem
           end)
          (Poem.image_url poem) (Poem.likes poem) (Poem.likes_count poem)
          (Poem.comments_count poem) (Poem.is_featured poem) (Poem.createdAt poem).

Definition put_poem (id : ObjectId) (title content category tags : option string)
    (userId : ObjectId) (db : Db) : Response * Db :=
  match poems db !! id with
  | None => (res 404 (Error "Poem not found"), db)
  | Some poem =>
      if bool_decide (Poem.author poem ≠ userId)
      then (res 403 (Error "Not authorized"), db)
      else
        let poem' := edit_poem title content category tags poem in
        (res 200 (OnePoem (mkPoemJson id poem' (populate_author false db (Poem.author poem')))),
         mkDb (users db) (<[id := poem']> (poems db)) (comments db))
  end.

(** ** DELETE /api/poems/:id *)

Definition delete_poem (id : ObjectId) (userId : ObjectId) (db : Db) : Response * Db :=
  match poems db !! id with
  | None => (res 404 (Error "Poem not found"), db)
  | Some poem =>
      if bool_decide (Poem.author poem ≠ userId)
      then (res 403 (Error "Not authorized"), db)
      else
        (res 200 (Message "Poem deleted successfully"),
         mkDb (users db)
              (delete id (poems db))
              (filter (λ kc, Comment.poem kc.2 ≠ id) (comments db)))
  end.

(** ** POST /api/poems/:id/like *)

Definition like_poem (userId : ObjectId) (poem : Poem.t) : Poem.t :=
  let '(Poem.mk title content author category tags image_url
                likes likes_count comments_count is_featured createdAt) := poem in
  if includes likes userId
  then Poem.mk title content author category tags image_url
               (pull likes userId) (Z.max 0 (likes_count - 1))
               comments_count is_featured createdAt
  else Poem.mk title content author category tags image_url
               (push likes userId) (likes_count + 1)
               comments_count is_featured createdAt.

Definition post_like (id : ObjectId) (userId : ObjectId) (db : Db) : Response * Db :=
  match poems db !! id with
  | None => (res 404 (Error "Poem not found"), db)
  | Some poem =>
      let isLiked := includes (Poem.likes poem) userId in
      let poem' := like_poem userId poem in
      (res 200 (LikeResult (negb isLiked) (Poem.likes_count poem')),
       mkDb (users db) (<[id := poem']> (poems db)) (comments db))
  end.

(** ** POST /api/poems/:id/comments *)

Definition push_reply (_id : ObjectId) (c : Comment.t) : Comment.t :=
  Comment.mk (Comment.poem c) (Comment.author c) (Comment.content c) (Comment.parent c)
             (push (Comment.replies c) _id) (Comment.createdAt c).

Definition inc_comments_count (p : Poem.t) : Poem.t :=
  Poem.mk (Poem.title p) (Poem.content p) (Poem.author p) (Poem.category p) (Poem.tags p)
          (Poem.image_url p) (Poem.likes p) (Poem.likes_count p)
          (Poem.comments_count p + 1) (Poem.is_featured p) (Poem.createdAt p).

Definition post_comment (id : ObjectId) (content parentId : option string)
    (_id : ObjectId) (now : Z) (userId : ObjectId) (db : Db) : Response * Db :=
  if negb (truthy content)
  then (res 500 (Caught ValidationError), db)
  else match comments db !! _id with
  | Some _ => (res 500 (Caught DuplicateKey), db)
  | None =>
      let comment :=
        Comment.mk id userId (default "" content)
                   (if truthy parentId then parentId else None) [] now in
      let saved := <[_id := comment]> (comments db) in
      let comments' :=
        match parentId with
        | Some parent => if truthy parentId then alter (push_reply _id) parent saved else saved
        | None => saved
        end in
      (res 201 (OneComment (mkCommentJson _id comment (populate_author true db userId) [])),
       mkDb (users db) (alter inc_comments_count id (poems db)) comments')
  end.

(** ** POST /api/users/:id/follow *)

Definition set_following (l : list ObjectId) (u : User.t) : User.t :=
  User.mk (User.username u) (User.email u) (User.password u) (User.bio u)
          (User.avatar_url u) (User.followers u) l (User.createdAt u).

Definition set_followers (l : list ObjectId) (u : User.t) : User.t :=
  User.mk (User.username u) (User.email u) (User.password u) (User.bio u)
          (User.avatar_url u) l (User.following u) (User.createdAt u).

(** [new ObjectId(id)] reads the hexadecimal digits of [id] in either
    case; the rendering that [toString] gives back, and under which the
    store keeps a document, is the one in lower case. *)
Definition hexToLowerCase (a : ascii) : ascii :=
  let n := N_of_ascii a in
  if bool_decide (65 ≤ n ≤ 70)%N then ascii_of_N (n + 32) else a.

Fixpoint castObjectId (id : string) : ObjectId :=
  match id with
  | EmptyString => EmptyString
  | String a rest => String (hexToLowerCase a) (castObjectId rest)
  end.

(** [User.findById(id)] for an identifier taken from the path: the document
    under the cast of [id], with its [_id].  The keys of the store are
    canonical, so an identifier that is a key is its own cast and is looked
    up as it is. *)
Definition findById (id : string) (db : Db) : option (ObjectId * User.t) :=
  match users db !! id with
  | Some user => Some (id, user)
  | None =>
      match users db !! castObjectId id with
      | Some user => Some (castObjectId id, user)
      | None => None
      end
  end.

(** The self-follow check and [includes] compare the path identifier as it
    was written; [findById], [push] and [pull] cast it.  Each [save] writes
    the one array its document changed. *)
Definition post_follow (targetUserId : ObjectId) (currentUserId : ObjectId) (db : Db)
    : Response * Db :=
  if bool_decide (targetUserId = currentUserId)
  then (res 400 (Error "Cannot follow yourself"), db)
  else match findById targetUserId db with
  | None => (res 404 (Error "User not found"), db)
  | Some (target_id, targetUser) =>
      match users db !! currentUserId with
      | None => (res 500 (Caught TypeError), db)
      | Some currentUser =>
          let isFollowing := includes (User.following currentUser) targetUserId in
          let following' :=
            if isFollowing
            then pull (User.following currentUser) target_id
            else push (User.following currentUser) target_id in
          let followers' :=
            if isFollowing
            then pull (User.followers targetUser) currentUserId
            else push (User.followers targetUser) currentUserId in
          (res 200 (FollowResult (negb isFollowing)),
           mkDb (alter (set_followers followers') target_id
                   (alter (set_following following') currentUserId (users db)))
                (poems db) (comments db))
      end
  end.

(** ** The routes that write

    The remaining routes (login, me, the poem, comment and user queries,
    like-status) only read the store. *)

Inductive Request :=
  | Register (username email hashed : string) (_id : ObjectId) (now : Z)
  | CreatePoem (auth : Authorization) (title content category tags file : option string)
               (_id : ObjectId) (now : Z)
  | UpdatePoem (auth : Authorization) (id : ObjectId)
               (title content category tags : option string)
  | DeletePoem (auth : Authorization) (id : ObjectId)
  | ToggleLike (auth : Authorization) (id : ObjectId)
  | CreateComment (auth : Authorization) (id : ObjectId) (content parentId : option string)
                  (_id : ObjectId) (now : Z)
  | ToggleFollow (auth : Authorization) (id : ObjectId).

Definition handle (r : Request) (db : Db) : Response * Db :=
  match r with
  | Register username email hashed _id now =>
      post_register username email hashed _id now db
  | CreatePoem auth title content category tags file _id now =>
      authenticateToken auth (post_poem title content category tags file _id now) db
  | UpdatePoem auth id title content category tags =>
      authenticateToken auth (put_poem id title content category tags) db
  | DeletePoem auth id =>
      authenticateToken auth (delete_poem id) db
  | ToggleLike auth id =>
      authenticateToken auth (post_like id) db
  | CreateComment auth id content parentId _id now =>
      authenticateToken auth (post_comment id content parentId _id now) db
  | ToggleFollow auth id =>
      authenticateToken auth (post_follow id) db
  end.

(** The store after a sequence of requests, served one after the other. *)
Definition run (rs : list Request) (db : Db) : Db :=
  foldl (λ d r, (handle r d).2) db rs.

(** ** GET /api/poems/:id/comments *)

(** [.sort({ createdAt: 1 })] *)
Definition created_asc : relation (ObjectId * Comment.t) :=
  λ a b, Comment.createdAt a.2 ≤ Comment.createdAt b.2.

Global Instance created_asc_dec : RelDecision created_asc.
Proof. intros a b. unfold created_asc. apply _. Defined.

(** One populated entry of [replies]; an identifier without a document is
    dropped by [populate]. *)
Definition populate_reply (db : Db) (rid : ObjectId) : option ReplyJson :=
  match comments db !! rid with
  | Some c => Some (mkReplyJson rid c (populate_author true db (Comment.author c)))
  | None => None
  end.

Definition populate_comment (db : Db) (kc : ObjectId * Comment.t) : CommentJson :=
  mkCommentJson kc.1 kc.2
    (populate_author true db (Comment.author kc.2))
    (omap (populate_reply db) (Comment.replies kc.2)).

Definition top_level (id : ObjectId) (kc : ObjectId * Comment.t) : Prop :=
  Comment.poem kc.2 = id ∧ Comment.parent kc.2 = None.

Global Instance top_level_dec id kc : Decision (top_level id kc).
Proof. unfold top_level. apply _. Defined.

Definition get_comments (id : ObjectId) (db : Db) : Response :=
  let found := filter (top_level id) (map_to_list (comments db)) in
  res 200 (Comments (populate_comment db <$> merge_sort created_asc found)).

(** ** GET /api/poems *)

Record PoemsQuery := mkQuery {
  category : option string;
  search : option string;
  sort : option string;
  limit : option Z;
  page : option Z
}.

Inductive SortQuery :=
  | likes_count_desc
  | comments_count_desc
  | title_asc
  | createdAt_desc.

Definition sortQuery (sort : option string) : SortQuery :=
  if bool_decide (sort = Some "popular") then likes_count_desc
  else if bool_decide (sort = Some "commented") then comments_count_desc
  else if bool_decide (sort = Some "alphabetical") then title_asc
  else createdAt_desc.

Definition sort_le (o : SortQuery) : relation (ObjectId * Poem.t) :=
  λ a b,
  match o with
  | likes_count_desc => Poem.likes_count b.2 ≤ Poem.likes_count a.2
  | comments_count_desc => Poem.comments_count b.2 ≤ Poem.comments_count a.2
  | title_asc => String.le (Poem.title a.2) (Poem.title b.2)
  | createdAt_desc => Poem.createdAt b.2 ≤ Poem.createdAt a.2
  end.

Global Instance sort_le_dec o : RelDecision (sort_le o).
Proof. intros a b. destruct o; simpl; apply _. Defined.

(** [cursor.skip(n)]: the database refuses a negative offset. *)
Definition mongo_skip {A} (n : Z) (l : list A) : option (list A) :=
  if bool_decide (n < 0) then None else Some (drop (Z.to_nat n) l).

(** [cursor.limit(n)]: zero means no limit, and a negative bound is taken
    as its absolute value. *)
Definition mongo_limit {A} (n : Z) (l : list A) : list A :=
  if bool_decide (n = 0) then l else take (Z.abs_nat n) l.

(** The [$or] of the three regular-expression conditions. *)
Definition search_matches (re : string → bool) (p : Poem.t) : bool :=
  re (Poem.title p) || re (Poem.content p) || existsb re (Poem.tags p).

(** The filter built from the query; [None] when the expression is refused. *)
Definition poems_filter (RegExp_i : string → option (string → bool)) (q : PoemsQuery)
    : option (ObjectId * Poem.t → bool) :=
  let by_category : Poem.t → bool :=
    match category q with
    | Some c => if truthy (category q) then (λ p, bool_decide (Poem.category p = c))
                else (λ _, true)
    | None => (λ _, true)
    end in
  match search q with
  | Some s =>
      if truthy (search q)
      then match RegExp_i s with
           | Some re => Some (λ kp, by_category kp.2 && search_matches re kp.2)
           | None => None
           end
      else Some (λ kp, by_category kp.2)
  | None => Some (λ kp, by_category kp.2)
  end.

(** The handler, over the regular-expression engine of the database:
    [RegExp_i pattern] is the search of [pattern] with option [i], or [None]
    when the pattern is not a regular expression. *)
Definition get_poems (RegExp_i : string → option (string → bool)) (q : PoemsQuery)
    (db : Db) : Response :=
  let limit := default 20 (limit q) in
  let page := default 1 (page q) in
  match poems_filter RegExp_i q with
  | None => res 500 (Caught RegExpError)
  | Some query =>
      let found := filter (λ kp, query kp = true) (map_to_list (poems db)) in
      let sorted := merge_sort (sort_le (sortQuery (sort q))) found in
      match mongo_skip ((page - 1) * limit) sorted with
      | None => res 500 (Caught MongoError)
      | Some rest =>
          res 200 (Poems ((λ kp, mkPoemJson kp.1 kp.2
                                   (populate_author false db (Poem.author kp.2)))
                          <$> mongo_limit (limit * 1) rest))
      end
  end.

(** ** A small regular-expression engine

    Patterns made of literal characters and the wildcard [.] only, searched
    anywhere in the subject without regard to the case of ASCII letters.
    Every other pattern is refused; this is enough to run [get_poems] on
    concrete queries. *)

Inductive Atom :=
  | Lit (a : ascii)
  | AnyChar.

Definition is_meta (a : ascii) : bool :=
  bool_decide (a ∈ list_ascii_of_string "\^$.|?*+()[]{}").

Definition toLowerCase (a : ascii) : ascii :=
  let n := N_of_ascii a in
  if bool_decide (65 ≤ n ≤ 90)%N then ascii_of_N (n + 32) else a.

Fixpoint compile_atoms (pattern : string) : option (list Atom) :=
  match pattern with
  | EmptyString => Some []
  | String a rest =>
      if bool_decide (a = "."%char) then cons AnyChar <$> compile_atoms rest
      else if is_meta a then None
      else cons (Lit a) <$> compile_atoms rest
  end.

Fixpoint match_here (p : list Atom) (s : string) : bool :=
  match p, s with
  | [], _ => true
  | _ :: _, EmptyString => false
  | Lit a :: p', String b s' =>
      bool_decide (toLowerCase a = toLowerCase b) && match_here p' s'
  | AnyChar :: p', String b s' =>
      negb (bool_decide (b = "010"%char)) && match_here p' s'
  end.

Fixpoint match_anywhere (p : list Atom) (s : string) : bool :=
  match_here p s ||
  match s with
  | EmptyString => false
  | String _ s' => match_anywhere p s'
  end.

Definition simple_RegExp_i (pattern : string) : option (string → bool) :=
  match_anywhere <$> compile_atoms pattern.

(** [s] contains [t], without regard to the case of ASCII letters. *)
Definition contains_ci (t s : string) : Prop :=
  ∃ before after : list ascii,
    toLowerCase <$> list_ascii_of_string s
    = before ++ (toLowerCase <$> list_ascii_of_string t) ++ after.

(** ** Sample store *)

Definition alice : User.t := User.mk "alice" "alice@example.org" "$2a$10$hashA" "" "" [] [] 1.
Definition bob : User.t := User.mk "bob" "bob@example.org" "$2a$10$hashB" "" "" [] [] 2.

Definition ode : Poem.t :=
  Poem.mk "Ode" "To autumn" "u1" "nature" ["season"] "" [] 0 0 false 10.
Definition sonnet : Poem.t :=
  Poem.mk "Sonnet" "Shall I compare thee" "u2" "love" ["summer"; "day"] "" [] 0 0 false 20.

Definition db0 : Db :=
  mkDb {[ "u1" := alice; "u2" := bob ]} {[ "p1" := ode; "p2" := sonnet ]} ∅.

(** A store of two users under identifiers as MongoDB renders them. *)
Definition erin : User.t := User.mk "erin" "erin@example.org" "$2a$10$hashE" "" "" [] [] 5.
Definition finn : User.t := User.mk "finn" "finn@example.org" "$2a$10$hashF" "" "" [] [] 6.

Definition db_hex : Db :=
  mkDb {[ "65f0a1b2c3d4e5f6a7b8c9d0" := erin; "65f0a1b2c3d4e5f6a7b8c9d1" := finn ]} ∅ ∅.

(** The sample store after three comments: one on ["p1"], a reply to it,
    and one on ["p2"]. *)
Definition db1 : Db :=
  run [CreateComment (Bearer "u2") "p1" (Some "Lovely") None "c1" 30;
       CreateComment (Bearer "u1") "p1" (Some "Thank you") (Some "c1") "c2" 40;
       CreateComment (Bearer "u1") "p2" (Some "Bold") None "c3" 50] db0.

(** A poem whose counter lags behind its [likes]: ["u2"] likes it, the
    counter says nobody does. *)
Definition lagging : Poem.t :=
  Poem.mk "Ode" "To autumn" "u1" "nature" ["season"] "" ["u2"] 0 0 false 10.

Definition db_lagging : Db :=
  mkDb {[ "u1" := alice; "u2" := bob ]} {[ "p1" := lagging ]} ∅.

(** ** Properties *)

Definition likes_set (p : Poem.t) : gset string := list_to_set (Poem.likes p).

(** [likes_count] is the cardinality of the set of users in [likes]. *)
Definition likes_consistent (p : Poem.t) : Prop :=
  Poem.likes_count p = Z.of_nat (size (likes_set p)).

(** Every stored poem has its counter in step with its likes. *)
Definition all_likes_consistent (db : Db) : Prop :=
  map_Forall (λ _ p, likes_consistent p) (poems db).

Definition is_toggle_like (r : Request) : Prop :=
  match r with
  | ToggleLike _ _ => True
  | _ => False
  end.

(** Two like requests of [userId] on poem [id], which held [p], bring back
    the liked state of [userId] and the counter of [p]. *)
Definition like_twice_restores (db : Db) (id userId : ObjectId) (p : Poem.t) : Prop :=
  ∃ p2, poems (run [ToggleLike (Bearer userId) id; ToggleLike (Bearer userId) id] db) !! id
        = Some p2
      ∧ includes (Poem.likes p2) userId = includes (Poem.likes p) userId
      ∧ Poem.likes_count p2 = Poem.likes_count p.

(** [a] has [b] in its [following]. *)
Definition follows (db : Db) (a b : ObjectId) : Prop :=
  ∃ ua, users db !! a = Some ua ∧ b ∈ User.following ua.

(** [b] has [a] in its [followers]. *)
Definition has_follower (db : Db) (b a : ObjectId) : Prop :=
  ∃ ub, users db !! b = Some ub ∧ a ∈ User.followers ub.

Definition mutual_dual (db : Db) (a b : ObjectId) : Prop :=
  has_follower db b a ↔ follows db a b.

(** The follow relation from [a] to [b] is the same after two follow
    requests of [a] on [b] as after one. *)
Definition follow_twice_as_once (db : Db) (a b : ObjectId) : Prop :=
  follows (run [ToggleFollow (Bearer a) b; ToggleFollow (Bearer a) b] db) a b
  ↔ follows (run [ToggleFollow (Bearer a) b] db) a b.

(** A poem contains the search string in its title, its content or one of
    its tags, without regard to case. *)
Definition contains_search (s : string) (p : Poem.t) : Prop :=
  contains_ci s (Poem.title p) ∨ contains_ci s (Poem.content p)
  ∨ ∃ tag, tag ∈ Poem.tags p ∧ contains_ci s tag.

(** Every poem listed for a query with a search parameter contains the
    search string. *)
Definition search_is_containment (RegExp_i : string → option (string → bool))
    (q : PoemsQuery) (db : Db) : Prop :=
  ∀ s l v, search q = Some s → s ≠ "" →
    get_poems RegExp_i q db = res 200 (Poems l) → v ∈ l →
    contains_search s (poem_doc v).

(** The expression [re] matches in the title, the content or one of the
    tags of the poem. *)
Definition regexp_search (re : string → bool) (p : Poem.t) : Prop :=
  re (Poem.title p) = true ∨ re (Poem.content p) = true
  ∨ ∃ tag, tag ∈ Poem.tags p ∧ re tag = true.

(** The poem passes the filters of the query: the category, when one is
    given, is exactly the poem's; the search, when one is given, is a
    regular expression that matches the poem. *)
Definition selected (RegExp_i : string → option (string → bool)) (q : PoemsQuery)
    (p : Poem.t) : Prop :=
  (∀ c, category q = Some c → c ≠ "" → Poem.category p = c)
  ∧ (∀ s, search q = Some s → s ≠ "" →
       ∃ re, RegExp_i s = Some re ∧ regexp_search re p).

Definition search_refused (RegExp_i : string → option (string → bool)) (q : PoemsQuery)
    : Prop :=
  ∃ s, search q = Some s ∧ s ≠ "" ∧ RegExp_i s = None.

(** The list is in the order selected by the [sort] parameter. *)
Definition ordered (sort : option string) (all : list PoemJson) : Prop :=
  (sort = Some "popular" →
   StronglySorted (λ v w, Poem.likes_count (poem_doc w) ≤ Poem.likes_count (poem_doc v)) all)
  ∧ (sort = Some "commented" →
     StronglySorted
       (λ v w, Poem.comments_count (poem_doc w) ≤ Poem.comments_count (poem_doc v)) all)
  ∧ (sort = Some "alphabetical" →
     StronglySorted (λ v w, String.le (Poem.title (poem_doc v)) (Poem.title (poem_doc w))) all)
  ∧ (sort ≠ Some "popular" → sort ≠ Some "commented" → sort ≠ Some "alphabetical" →
     StronglySorted (λ v w, Poem.createdAt (poem_doc w) ≤ Poem.createdAt (poem_doc v)) all).

(** [all] is the whole answer to the query before pagination: each stored
    poem that passes the filters, once, with its author populated, in the
    selected order. *)
Definition listing (RegExp_i : string → option (string → bool)) (q : PoemsQuery) (db : Db)
    (all : list PoemJson) : Prop :=
  NoDup (poem_id <$> all)
  ∧ (∀ v, v ∈ all ↔
          poems db !! poem_id v = Some (poem_doc v)
          ∧ selected RegExp_i q (poem_doc v)
          ∧ poem_author v = populate_author false db (Poem.author (poem_doc v)))
  ∧ ordered (sort q) all.

(** ** The routes that only read

    Their answers that are not among the shapes of [Body] are those of
    [Info]. *)

Inductive Info :=
  | NoInfo (error : string)
  | InfoCaught (error : Exception)
  | Me (user : UserJson)
  | LikeStatus (liked : bool)
  | Profile (user : UserJson) (followers_count following_count : nat)
  | Stats (totalPoems : nat) (totalLikes totalComments : Z).

Record InfoResponse := info { info_status : Z; info_json : Info }.

(** [authenticateToken] in front of a route that only reads. *)
Definition authenticated (auth : Authorization) (next : ObjectId → InfoResponse)
    : InfoResponse :=
  match auth with
  | NoToken => info 401 (NoInfo "Access token required")
  | InvalidToken => info 403 (NoInfo "Invalid token")
  | Bearer userId => next userId
  end.

Definition user_json (id : ObjectId) (u : User.t) : UserJson :=
  mkUserJson id (User.username u) (User.email u) (User.bio u) (User.avatar_url u)
             (User.createdAt u).

(** [User.findOne({ email })] *)
Definition find_by_email (email : string) (db : Db) : option (ObjectId * User.t) :=
  head (filter (λ ku, User.email ku.2 = email) (map_to_list (users db))).

(** POST /api/auth/login, over [bcrypt.compare]; the body carries an email
    and a password. *)
Definition post_login (compare : string → string → bool) (email password : string)
    (db : Db) : Response :=
  match find_by_email email db with
  | None => res 400 (Error "Invalid credentials")
  | Some (id, user) =>
      if compare password (User.password user)
      then res 200 (AuthResult id (user_json id user))
      else res 400 (Error "Invalid credentials")
  end.

(** GET /api/auth/me *)
Definition get_me (auth : Authorization) (db : Db) : InfoResponse :=
  authenticated auth (λ userId,
    match users db !! userId with
    | Some user => info 200 (Me (user_json userId user))
    | None => info 500 (InfoCaught TypeError)
    end).

Definition poem_json (avatar : bool) (db : Db) (kp : ObjectId * Poem.t) : PoemJson :=
  mkPoemJson kp.1 kp.2 (populate_author avatar db (Poem.author kp.2)).

(** GET /api/poems/featured *)
Definition get_featured (db : Db) : Response :=
  let found := filter (λ kp, Poem.is_featured kp.2 = true) (map_to_list (poems db)) in
  res 200 (Poems (poem_json false db
                    <$> mongo_limit 3 (merge_sort (sort_le createdAt_desc) found))).

(** GET /api/poems/trending *)
Definition get_trending (db : Db) : Response :=
  res 200 (Poems (poem_json false db
                    <$> mongo_limit 6 (merge_sort (sort_le likes_count_desc)
                                         (map_to_list (poems db))))).

(** GET /api/poems/:id *)
Definition get_poem (id : ObjectId) (db : Db) : Response :=
  match poems db !! id with
  | None => res 404 (Error "Poem not found")
  | Some poem => res 200 (OnePoem (poem_json true db (id, poem)))
  end.

(** GET /api/poems/:id/like-status *)
Definition get_like_status (auth : Authorization) (id : ObjectId) (db : Db) : InfoResponse :=
  authenticated auth (λ userId,
    match poems db !! id with
    | None => info 404 (NoInfo "Poem not found")
    | Some poem => info 200 (LikeStatus (includes (Poem.likes poem) userId))
    end).

(** GET /api/users/:id *)
Definition get_user (id : ObjectId) (db : Db) : InfoResponse :=
  match users db !! id with
  | None => info 404 (NoInfo "User not found")
  | Some user =>
      info 200 (Profile (user_json id user)
                  (length (User.followers user)) (length (User.following user)))
  end.

(** [Poem.find({ author: id })] *)
Definition poems_of (id : ObjectId) (db : Db) : list (ObjectId * Poem.t) :=
  filter (λ kp, Poem.author kp.2 = id) (map_to_list (poems db)).

(** GET /api/users/:id/poems *)
Definition get_user_poems (id : ObjectId) (db : Db) : Response :=
  res 200 (Poems (poem_json false db
                    <$> merge_sort (sort_le createdAt_desc) (poems_of id db))).

(** GET /api/users/:id/stats *)
Definition get_user_stats (id : ObjectId) (db : Db) : InfoResponse :=
  let totalPoems := length (poems_of id db) in
  let poems := poems_of id db in
  let totalLikes := foldl (λ sum kp, sum + Poem.likes_count kp.2) 0 poems in
  let totalComments := foldl (λ sum kp, sum + Poem.comments_count kp.2) 0 poems in
  info 200 (Stats totalPoems totalLikes totalComments).

(** A stand-in for [bcrypt.compare] on the sample store, where the hash of
    a password is the password after a fixed prefix. *)
Definition sample_compare (password hashed : string) : bool :=
  bool_decide (hashed = "$2a$10$hash" +:+ password).

(** ** Further properties *)

(** The token a request carries, for the routes behind [authenticateToken]. *)
Definition credentials (r : Request) : option Authorization :=
  match r with
  | Register _ _ _ _ _ => None
  | CreatePoem auth _ _ _ _ _ _ _ => Some auth
  | UpdatePoem auth _ _ _ _ _ => Some auth
  | DeletePoem auth _ => Some auth
  | ToggleLike auth _ => Some auth
  | CreateComment auth _ _ _ _ _ => Some auth
  | ToggleFollow auth _ => Some auth
  end.

Definition empty_db : Db := mkDb ∅ ∅ ∅.

(** A follow request names its target by the canonical rendering of the
    identifier. *)
Definition canonical_target (r : Request) : Prop :=
  match r with
  | ToggleFollow _ id => castObjectId id = id
  | _ => True
  end.

(** No two users share an email or a username. *)
Definition users_unique (db : Db) : Prop :=
  ∀ i j u v, users db !! i = Some u → users db !! j = Some v →
    User.email u = User.email v ∨ User.username u = User.username v → i = j.

(** The follow graph is well formed: the two lists of every user have no
    duplicates, name stored users only, never the user itself, and
    [followers] is the converse of [following]. *)
Definition follow_graph_ok (db : Db) : Prop :=
  ∀ a ua, users db !! a = Some ua →
    NoDup (User.following ua) ∧ NoDup (User.followers ua)
    ∧ (a ∉ User.following ua) ∧ (a ∉ User.followers ua)
    ∧ (∀ b, b ∈ User.following ua →
         ∃ ub, users db !! b = Some ub ∧ a ∈ User.followers ub)
    ∧ (∀ b, b ∈ User.followers ua →
         ∃ ub, users db !! b = Some ub ∧ a ∈ User.following ub).

(** * Theorems *)

(** ** Arrays as sets *)

Lemma includes_true arr v : includes arr v = true ↔ v ∈ arr.
Proof. unfold includes. apply bool_decide_eq_true. Qed.

Lemma includes_false arr v : includes arr v = false ↔ v ∉ arr.
Proof. unfold includes. apply bool_decide_eq_false. Qed.

Lemma elem_of_pull arr v x : x ∈ pull arr v ↔ x ∈ arr ∧ x ≠ v.
Proof. unfold pull. rewrite list_elem_of_filter. tauto. Qed.

Lemma elem_of_push arr v x : x ∈ push arr v ↔ x ∈ arr ∨ x = v.
Proof. unfold push. rewrite elem_of_app, list_elem_of_singleton. tauto. Qed.

Lemma pull_fresh arr v : v ∉ arr → pull arr v = arr.
Proof.
  unfold pull. induction arr as [|x arr IH]; intros Hv; [done|].
  apply not_elem_of_cons in Hv as [Hx Hv].
  rewrite filter_cons_True by congruence. f_equal. auto.
Qed.

Lemma pull_push_fresh arr v : v ∉ arr → pull (push arr v) v = arr.
Proof.
  intros Hv. unfold pull, push. rewrite filter_app.
  rewrite (filter_cons_False _ v []) by (intros H; by apply H).
  rewrite filter_nil, app_nil_r. by apply pull_fresh.
Qed.

Lemma pull_set (arr : list ObjectId) (v : ObjectId) :
  (list_to_set (pull arr v) : gset string) = list_to_set arr ∖ {[v]}.
Proof.
  apply set_eq. intros x.
  rewrite elem_of_difference, !elem_of_list_to_set, elem_of_pull, elem_of_singleton.
  tauto.
Qed.

Lemma push_set (arr : list ObjectId) (v : ObjectId) :
  (list_to_set (push arr v) : gset string) = list_to_set arr ∪ {[v]}.
Proof.
  apply set_eq. intros x.
  rewrite elem_of_union, !elem_of_list_to_set, elem_of_push, elem_of_singleton.
  tauto.
Qed.

Lemma size_pull (arr : list ObjectId) (v : ObjectId) :
  v ∈ arr →
  S (size (list_to_set (pull arr v) : gset string)) = size (list_to_set arr : gset string).
Proof.
  intros Hv. rewrite pull_set.
  assert (Hsub : ({[v]} : gset string) ⊆ list_to_set arr).
  { apply singleton_subseteq_l, elem_of_list_to_set, Hv. }
  pose proof (size_difference _ _ Hsub) as Hd.
  rewrite size_singleton in Hd.
  assert (size (list_to_set arr : gset string) ≠ 0%nat).
  { intros Hz%size_empty_inv. apply (not_elem_of_empty (C:=gset string) v).
    rewrite <- Hz. apply elem_of_list_to_set, Hv. }
  lia.
Qed.

Lemma size_push (arr : list ObjectId) (v : ObjectId) :
  v ∉ arr →
  size (list_to_set (push arr v) : gset string) = S (size (list_to_set arr : gset string)).
Proof.
  intros Hv. rewrite push_set, size_union, size_singleton; [lia|].
  apply disjoint_singleton_r. rewrite elem_of_list_to_set. exact Hv.
Qed.

(** ** Likes *)

Lemma like_poem_consistent userId p :
  likes_consistent p → likes_consistent (like_poem userId p).
Proof.
  destruct p as [t c a cat tg img l n cc f ca].
  unfold likes_consistent, likes_set, like_poem. simpl. intros ->.
  destruct (includes l userId) eqn:Hin; simpl.
  - apply includes_true in Hin. pose proof (size_pull l userId Hin). lia.
  - apply includes_false in Hin. rewrite (size_push l userId Hin). lia.
Qed.

Lemma post_like_lookup id userId db j :
  poems (post_like id userId db).2 !! j
  = if decide (id = j) then like_poem userId <$> poems db !! id else poems db !! j.
Proof.
  unfold post_like. destruct (poems db !! id) as [p|] eqn:Hp; simpl.
  - rewrite lookup_insert. case_decide; [done|]. done.
  - case_decide; [by subst|done].
Qed.

Lemma toggle_like_consistent auth pid db id p :
  poems db !! id = Some p → likes_consistent p →
  ∃ p', poems (handle (ToggleLike auth pid) db).2 !! id = Some p' ∧ likes_consistent p'.
Proof.
  intros Hp Hc. destruct auth as [| |userId]; simpl; [by eauto..|].
  rewrite post_like_lookup. case_decide as Hid.
  - subst pid. rewrite Hp. simpl. eauto using like_poem_consistent.
  - eauto.
Qed.

(** C1. For a poem whose [likes_count] is the cardinality of its likes set,
    after any sequence of like-toggle requests, by any users and on any
    poems, the poem is still stored and its [likes_count] is still the
    cardinality of its likes set. *)
Theorem likes_count_invariant (rs : list Request) (db : Db) (id : ObjectId) (p : Poem.t) :
  Forall is_toggle_like rs →
  poems db !! id = Some p →
  likes_consistent p →
  ∃ p', poems (run rs db) !! id = Some p' ∧ likes_consistent p'.
Proof.
  intros Hrs. revert db p.
  induction Hrs as [|r rs Hr _ IH]; intros db p Hp Hc.
  - simpl. eauto.
  - destruct r; try contradiction.
    destruct (toggle_like_consistent auth id0 db id p Hp Hc) as (p1 & Hp1 & Hc1).
    unfold run. simpl. apply (IH _ p1); assumption.
Qed.

Lemma likes_count_invariant_witness :
  let rs := [ToggleLike (Bearer "u1") "p1"; ToggleLike (Bearer "u2") "p1";
             ToggleLike NoToken "p1"; ToggleLike (Bearer "u1") "p1";
             ToggleLike (Bearer "u2") "p2"] in
  Forall is_toggle_like rs ∧ poems db0 !! "p1" = Some ode ∧ likes_consistent ode
  ∧ ∃ p', poems (run rs db0) !! "p1" = Some p' ∧ likes_consistent p'.
Proof.
  assert (H1 : Forall is_toggle_like
                 [ToggleLike (Bearer "u1") "p1"; ToggleLike (Bearer "u2") "p1";
                  ToggleLike NoToken "p1"; ToggleLike (Bearer "u1") "p1";
                  ToggleLike (Bearer "u2") "p2"]).
  { repeat constructor. }
  assert (H2 : poems db0 !! "p1" = Some ode) by (vm_compute; reflexivity).
  assert (H3 : likes_consistent ode) by (vm_compute; reflexivity).
  exact (conj H1 (conj H2 (conj H3 (likes_count_invariant _ db0 "p1" ode H1 H2 H3)))).
Defined.

Example like_then_unlike :
  (handle (ToggleLike (Bearer "u2") "p1") db0).1 = res 200 (LikeResult true 1)
  ∧ (handle (ToggleLike (Bearer "u2") "p1")
       (run [ToggleLike (Bearer "u2") "p1"] db0)).1 = res 200 (LikeResult false 0)
  ∧ (handle (ToggleLike NoToken "p1") db0).1 = res 401 (Error "Access token required")
  ∧ (handle (ToggleLike (Bearer "u2") "p9") db0).1 = res 404 (Error "Poem not found").
Proof. repeat split; vm_compute; reflexivity. Qed.

Lemma like_poem_twice userId p :
  likes_consistent p →
  includes (Poem.likes (like_poem userId (like_poem userId p))) userId
  = includes (Poem.likes p) userId
  ∧ Poem.likes_count (like_poem userId (like_poem userId p)) = Poem.likes_count p.
Proof.
  destruct p as [t c a cat tg img l n cc f ca].
  unfold likes_consistent, likes_set. simpl. intros ->.
  destruct (includes l userId) eqn:Hin; simpl.
  - assert (Hout : includes (pull l userId) userId = false).
    { apply includes_false. rewrite elem_of_pull. tauto. }
    rewrite Hout. simpl. split.
    + apply includes_true, elem_of_push. by right.
    + apply includes_true in Hin. pose proof (size_pull l userId Hin). lia.
  - assert (Hnow : includes (push l userId) userId = true).
    { apply includes_true, elem_of_push. by right. }
    rewrite Hnow. simpl. split.
    + apply includes_false. rewrite elem_of_pull. tauto.
    + lia.
Qed.

(** C2, as stated, fails on a poem whose counter lags: ["u2"] is in [likes]
    with [likes_count] 0; the first toggle clamps the counter at 0, the
    second raises it to 1. *)
Lemma like_twice_lagging_counter :
  poems db_lagging !! "p1" = Some lagging
  ∧ ¬ like_twice_restores db_lagging "p1" "u2" lagging.
Proof.
  split; [vm_compute; reflexivity|].
  intros (p2 & Hp2 & _ & Hn). vm_compute in Hp2.
  injection Hp2 as <-. vm_compute in Hn. discriminate Hn.
Qed.

(** C2, amended. For every user and every poem whose [likes_count] is the
    cardinality of its likes set, two like-toggle requests in succession
    bring the poem back to its original liked state for that user and to
    its original [likes_count]. *)
Theorem like_twice_restores_consistent (db : Db) (id userId : ObjectId) (p : Poem.t) :
  poems db !! id = Some p →
  likes_consistent p →
  like_twice_restores db id userId p.
Proof.
  intros Hp Hc. exists (like_poem userId (like_poem userId p)).
  split; [|by apply like_poem_twice].
  unfold run. simpl. rewrite !post_like_lookup.
  rewrite !decide_True by done. by rewrite Hp.
Qed.

Lemma like_twice_restores_consistent_witness :
  poems db0 !! "p2" = Some sonnet ∧ likes_consistent sonnet
  ∧ like_twice_restores db0 "p2" "u1" sonnet.
Proof.
  assert (H1 : poems db0 !! "p2" = Some sonnet) by (vm_compute; reflexivity).
  assert (H2 : likes_consistent sonnet) by (vm_compute; reflexivity).
  exact (conj H1 (conj H2 (like_twice_restores_consistent db0 "p2" "u1" sonnet H1 H2))).
Defined.

(** On an array without duplicates the cardinality of the likes set is the
    length of the array, and a toggle introduces no duplicates. *)
Lemma likes_set_length p :
  NoDup (Poem.likes p) → size (likes_set p) = length (Poem.likes p).
Proof. apply size_list_to_set. Qed.

Lemma like_poem_NoDup userId p :
  NoDup (Poem.likes p) → NoDup (Poem.likes (like_poem userId p)).
Proof.
  destruct p as [t c a cat tg img l n cc f ca]. unfold like_poem. simpl. intros Hl.
  destruct (includes l userId) eqn:Hin; simpl.
  - by apply NoDup_filter.
  - apply includes_false in Hin. unfold push. apply NoDup_app.
    split; [done|]. split; [|apply NoDup_singleton].
    intros x Hx ->%list_elem_of_singleton. done.
Qed.

(** The counters stay in step with the likes under every request, so they
    are in step in every store reached from the empty one. *)
Lemma handle_likes_consistent (r : Request) (db : Db) :
  all_likes_consistent db → all_likes_consistent (handle r db).2.
Proof.
  unfold all_likes_consistent. intros Hdb.
  destruct r as
    [username email hashed _id now
    |auth title content category tags file _id now
    |auth id title content category tags
    |auth id
    |auth id
    |auth id content parentId _id now
    |auth id]; simpl.
  - unfold post_register.
    destruct (user_exists _ _ _); [done|]. destruct (negb _); [done|].
    by destruct (users db !! _id).
  - destruct auth as [| |userId]; simpl; [done..|].
    unfold post_poem. destruct (negb _); [done|].
    destruct (poems db !! _id); simpl; [done|].
    apply map_Forall_insert_2; [|done]. reflexivity.
  - destruct auth as [| |userId]; simpl; [done..|].
    unfold put_poem. destruct (poems db !! id) as [q|] eqn:Hq; [|done].
    case_bool_decide; simpl; [done|].
    apply map_Forall_insert_2; [|done]. exact (Hdb id q Hq).
  - destruct auth as [| |userId]; simpl; [done..|].
    unfold delete_poem. destruct (poems db !! id) as [q|] eqn:Hq; [|done].
    case_bool_decide; simpl; [done|]. by apply map_Forall_delete.
  - destruct auth as [| |userId]; simpl; [done..|].
    unfold post_like. destruct (poems db !! id) as [q|] eqn:Hq; [|done]. simpl.
    apply map_Forall_insert_2; [|done]. apply like_poem_consistent, (Hdb id q Hq).
  - destruct auth as [| |userId]; simpl; [done..|].
    unfold post_comment. destruct (negb _); [done|].
    destruct (comments db !! _id); simpl; [done|].
    intros i p [[<- (q & Hq & ->)]|[_ Hp]]%lookup_alter_Some.
    + exact (Hdb id q Hq).
    + exact (Hdb i p Hp).
  - destruct auth as [| |userId]; simpl; [done..|].
    unfold post_follow. repeat case_match; done.
Qed.

Lemma run_likes_consistent (rs : list Request) (db : Db) :
  all_likes_consistent db → all_likes_consistent (run rs db).
Proof.
  revert db. induction rs as [|r rs IH]; intros db Hdb; [done|].
  apply (IH (handle r db).2), handle_likes_consistent, Hdb.
Qed.

Lemma reachable_likes_consistent (rs : list Request) :
  all_likes_consistent (run rs (mkDb ∅ ∅ ∅)).
Proof. apply run_likes_consistent, map_Forall_empty. Qed.

(** ** Follows *)

Lemma alter_found {A} (f : A → A) (i : string) (m : gmap string A) (x : A) :
  m !! i = Some x → alter f i m = <[i := f x]> m.
Proof.
  intros Hx. apply map_eq. intros j. rewrite lookup_alter, lookup_insert.
  case_decide; [subst; by rewrite Hx|done].
Qed.

Lemma findById_Some id db key user :
  findById id db = Some (key, user) →
  users db !! key = Some user ∧ (key = id ∨ key = castObjectId id).
Proof.
  unfold findById. destruct (users db !! id) as [u|] eqn:Hid.
  - intros [= <- <-]. auto.
  - destruct (users db !! castObjectId id) as [u|] eqn:Hcast; [|done].
    intros [= <- <-]. auto.
Qed.

Lemma findById_key id db user :
  users db !! id = Some user → findById id db = Some (id, user).
Proof. unfold findById. by intros ->. Qed.

(** On a store whose keys are canonical, [findById] is the lookup under
    the cast of the identifier. *)
Lemma findById_cast id db :
  (∀ key, is_Some (users db !! key) → castObjectId key = key) →
  findById id db
  = match users db !! castObjectId id with
    | Some user => Some (castObjectId id, user)
    | None => None
    end.
Proof.
  intros Hkeys. unfold findById. destruct (users db !! id) as [u|] eqn:Hid; [|done].
  rewrite (Hkeys id) by (by rewrite Hid). by rewrite Hid.
Qed.

Section follow.
Variables (targetUserId currentUserId : ObjectId) (db : Db).
Variables (targetUser currentUser : User.t).
Hypothesis distinct : targetUserId ≠ currentUserId.
Hypothesis target_found : users db !! targetUserId = Some targetUser.
Hypothesis current_found : users db !! currentUserId = Some currentUser.

Let isFollowing := includes (User.following currentUser) targetUserId.
Let following' :=
  if isFollowing then pull (User.following currentUser) targetUserId
  else push (User.following currentUser) targetUserId.
Let followers' :=
  if isFollowing then pull (User.followers targetUser) currentUserId
  else push (User.followers targetUser) currentUserId.

Lemma post_follow_found :
  post_follow targetUserId currentUserId db
  = (res 200 (FollowResult (negb isFollowing)),
     mkDb (<[targetUserId := set_followers followers' targetUser]>
             (<[currentUserId := set_following following' currentUser]> (users db)))
          (poems db) (comments db)).
Proof.
  unfold post_follow. rewrite bool_decide_eq_false_2 by done.
  rewrite (findById_key _ _ _ target_found), current_found.
  subst following' followers' isFollowing. cbv zeta.
  rewrite (alter_found _ currentUserId _ currentUser current_found).
  rewrite (alter_found _ targetUserId _ targetUser)
    by (by rewrite lookup_insert_ne).
  reflexivity.
Qed.

Lemma elem_of_following' b :
  b ∈ following' ↔
  if decide (b = targetUserId) then targetUserId ∉ User.following currentUser
  else b ∈ User.following currentUser.
Proof.
  subst following' isFollowing.
  destruct (includes _ _) eqn:Hin.
  - apply includes_true in Hin. rewrite elem_of_pull.
    case_decide; subst; tauto.
  - apply includes_false in Hin. rewrite elem_of_push.
    case_decide; subst; tauto.
Qed.

Lemma elem_of_followers' a :
  a ∈ followers' ↔
  if decide (a = currentUserId) then targetUserId ∉ User.following currentUser
  else a ∈ User.followers targetUser.
Proof.
  subst followers' isFollowing.
  destruct (includes _ _) eqn:Hin.
  - apply includes_true in Hin. rewrite elem_of_pull.
    case_decide; subst; tauto.
  - apply includes_false in Hin. rewrite elem_of_push.
    case_decide; subst; tauto.
Qed.

Lemma follows_post_follow a b :
  follows (post_follow targetUserId currentUserId db).2 a b ↔
  if decide (a = currentUserId ∧ b = targetUserId)
  then targetUserId ∉ User.following currentUser
  else follows db a b.
Proof.
  rewrite post_follow_found. unfold follows. simpl.
  destruct (decide (a = targetUserId)) as [->|Hat].
  - rewrite lookup_insert_eq, decide_False by (intros [? _]; congruence).
    rewrite target_found. split; intros (u & [= <-] & Hb); eauto.
  - rewrite lookup_insert_ne by done.
    destruct (decide (a = currentUserId)) as [->|Hac].
    + rewrite lookup_insert_eq, current_found. split.
      * intros (u & [= <-] & Hb). simpl in Hb.
        apply elem_of_following' in Hb.
        destruct (decide (b = targetUserId)) as [->|Hbt].
        -- by rewrite decide_True.
        -- rewrite decide_False by tauto. eauto.
      * intros H. eexists. split; [done|]. simpl.
        apply elem_of_following'.
        destruct (decide (b = targetUserId)) as [->|Hbt].
        -- by rewrite decide_True in H.
        -- rewrite decide_False in H by tauto.
           destruct H as (u & [= <-] & Hb). done.
    + rewrite lookup_insert_ne by done.
      by rewrite decide_False by tauto.
Qed.

Lemma has_follower_post_follow b a :
  has_follower (post_follow targetUserId currentUserId db).2 b a ↔
  if decide (a = currentUserId ∧ b = targetUserId)
  then targetUserId ∉ User.following currentUser
  else has_follower db b a.
Proof.
  rewrite post_follow_found. unfold has_follower. simpl.
  destruct (decide (b = targetUserId)) as [->|Hbt].
  - rewrite lookup_insert_eq, target_found. split.
    + intros (u & [= <-] & Ha). simpl in Ha.
      apply elem_of_followers' in Ha.
      destruct (decide (a = currentUserId)) as [->|Hac].
      * by rewrite decide_True.
      * rewrite decide_False by tauto. eauto.
    + intros H. eexists. split; [done|]. simpl.
      apply elem_of_followers'.
      destruct (decide (a = currentUserId)) as [->|Hac].
      * by rewrite decide_True in H.
      * rewrite decide_False in H by tauto.
        destruct H as (u & [= <-] & Ha). done.
  - rewrite lookup_insert_ne by done. rewrite decide_False by tauto.
    destruct (decide (b = currentUserId)) as [->|Hbc].
    + rewrite lookup_insert_eq, current_found.
      split; intros (u & [= <-] & Ha); eauto.
    + by rewrite lookup_insert_ne.
Qed.
End follow.

(** The same request when the path identifier names the target by any
    rendering: [target_id] is the key under which the target was found. *)
Section follow_resolved.
Variables (targetUserId currentUserId target_id : ObjectId) (db : Db).
Variables (targetUser currentUser : User.t).
Hypothesis target_found : users db !! target_id = Some targetUser.
Hypothesis current_found : users db !! currentUserId = Some currentUser.

Let isFollowing := includes (User.following currentUser) targetUserId.
Let following' :=
  if isFollowing then pull (User.following currentUser) target_id
  else push (User.following currentUser) target_id.
Let followers' :=
  if isFollowing then pull (User.followers targetUser) currentUserId
  else push (User.followers targetUser) currentUserId.
Let db' :=
  mkDb (alter (set_followers followers') target_id
          (alter (set_following following') currentUserId (users db)))
       (poems db) (comments db).

Lemma elem_of_resolved_following b :
  b ∈ following' ↔
  if decide (b = target_id) then isFollowing = false else b ∈ User.following currentUser.
Proof.
  subst following'. destruct isFollowing.
  - rewrite elem_of_pull. case_decide; subst; [|tauto]. split; [tauto|done].
  - rewrite elem_of_push. case_decide; subst; tauto.
Qed.

Lemma elem_of_resolved_followers a :
  a ∈ followers' ↔
  if decide (a = currentUserId) then isFollowing = false
  else a ∈ User.followers targetUser.
Proof.
  subst followers'. destruct isFollowing.
  - rewrite elem_of_pull. case_decide; subst; [|tauto]. split; [tauto|done].
  - rewrite elem_of_push. case_decide; subst; tauto.
Qed.

Lemma resolved_lookup k :
  ∃ f, users db' !! k = f <$> users db !! k
       ∧ (∀ u0, User.following (f u0)
                = if decide (currentUserId = k) then following' else User.following u0)
       ∧ (∀ u0, User.followers (f u0)
                = if decide (target_id = k) then followers' else User.followers u0).
Proof.
  subst db'. cbn [users].
  exists (λ u0, (if decide (target_id = k) then set_followers followers' else id)
                  ((if decide (currentUserId = k) then set_following following' else id)
                     u0)).
  split; [|split].
  - rewrite !lookup_alter. repeat case_decide; subst; destruct (users db !! k); done.
  - intros u0. repeat case_decide; done.
  - intros u0. repeat case_decide; done.
Qed.

Lemma follows_resolved a b :
  follows db' a b ↔
  if decide (a = currentUserId ∧ b = target_id) then isFollowing = false
  else follows db a b.
Proof.
  unfold follows. destruct (resolved_lookup a) as (f & -> & Hfollowing & _).
  assert (Hiff : (∃ ua, f <$> users db !! a = Some ua ∧ b ∈ User.following ua)
                 ↔ ∃ u0, users db !! a = Some u0
                         ∧ b ∈ (if decide (currentUserId = a) then following'
                                else User.following u0)).
  { split.
    - intros (ua & Hua & Hb). destruct (users db !! a) as [u0|]; [|done].
      injection Hua as <-. rewrite Hfollowing in Hb. eauto.
    - intros (u0 & -> & Hb). exists (f u0). by rewrite Hfollowing. }
  rewrite Hiff. clear Hiff. destruct (decide (currentUserId = a)) as [<-|Hca].
  - rewrite current_found. setoid_rewrite elem_of_resolved_following.
    destruct (decide (b = target_id)) as [->|Hbt].
    + rewrite decide_True by done. split; [by intros (u0 & _ & H)|eauto].
    + rewrite decide_False by tauto.
      split; intros (u0 & [= <-] & H); eauto.
  - by rewrite decide_False by (intros [-> _]; done).
Qed.

Lemma has_follower_resolved b a :
  has_follower db' b a ↔
  if decide (a = currentUserId ∧ b = target_id) then isFollowing = false
  else has_follower db b a.
Proof.
  unfold has_follower. destruct (resolved_lookup b) as (f & -> & _ & Hfollowers).
  assert (Hiff : (∃ ub, f <$> users db !! b = Some ub ∧ a ∈ User.followers ub)
                 ↔ ∃ u0, users db !! b = Some u0
                         ∧ a ∈ (if decide (target_id = b) then followers'
                                else User.followers u0)).
  { split.
    - intros (ub & Hub & Ha). destruct (users db !! b) as [u0|]; [|done].
      injection Hub as <-. rewrite Hfollowers in Ha. eauto.
    - intros (u0 & -> & Ha). exists (f u0). by rewrite Hfollowers. }
  rewrite Hiff. clear Hiff. destruct (decide (target_id = b)) as [<-|Htb].
  - rewrite target_found. setoid_rewrite elem_of_resolved_followers.
    destruct (decide (a = currentUserId)) as [->|Hac].
    + rewrite decide_True by done. split; [by intros (u0 & _ & H)|eauto].
    + rewrite decide_False by tauto.
      split; intros (u0 & [= <-] & H); eauto.
  - by rewrite decide_False by (intros [_ ->]; done).
Qed.
End follow_resolved.

Lemma post_follow_resolved targetUserId currentUserId target_id db targetUser currentUser :
  targetUserId ≠ currentUserId →
  findById targetUserId db = Some (target_id, targetUser) →
  users db !! currentUserId = Some currentUser →
  post_follow targetUserId currentUserId db
  = (res 200 (FollowResult (negb (includes (User.following currentUser) targetUserId))),
     mkDb (alter (set_followers
                    (if includes (User.following currentUser) targetUserId
                     then pull (User.followers targetUser) currentUserId
                     else push (User.followers targetUser) currentUserId)) target_id
             (alter (set_following
                       (if includes (User.following currentUser) targetUserId
                        then pull (User.following currentUser) target_id
                        else push (User.following currentUser) target_id)) currentUserId
                (users db)))
          (poems db) (comments db)).
Proof.
  intros Hne Ht Hc. unfold post_follow.
  rewrite bool_decide_eq_false_2 by done. by rewrite Ht, Hc.
Qed.

Lemma post_follow_unchanged targetUserId currentUserId db :
  targetUserId = currentUserId ∨ findById targetUserId db = None
  ∨ users db !! currentUserId = None →
  (post_follow targetUserId currentUserId db).2 = db.
Proof.
  unfold post_follow. intros H. case_bool_decide; [done|].
  destruct (findById targetUserId db) as [[target_id targetUser]|]; [|done].
  destruct (users db !! currentUserId); [|done].
  destruct H as [?|[?|?]]; congruence.
Qed.

(** C3. A follow request, whoever sends it and whatever its target, keeps
    the duality of every pair of users [a], [b]: if, before the call, [a] is
    in [b]'s followers exactly when [b] is in [a]'s following, then so it
    is after the call. *)
Theorem follow_preserves_mutual_dual (auth : Authorization) (id : ObjectId) (db : Db)
    (a b : ObjectId) :
  mutual_dual db a b →
  mutual_dual (handle (ToggleFollow auth id) db).2 a b.
Proof.
  intros Hdual. destruct auth as [| |userId]; simpl; [done..|].
  destruct (decide (id = userId)) as [Heq|Hne].
  { rewrite post_follow_unchanged by auto. done. }
  destruct (findById id db) as [[target_id tu]|] eqn:Ht.
  2: { rewrite post_follow_unchanged by auto. done. }
  destruct (users db !! userId) as [cu|] eqn:Hc.
  2: { rewrite post_follow_unchanged by auto. done. }
  rewrite (post_follow_resolved id userId target_id db tu cu Hne Ht Hc).
  apply findById_Some in Ht as [Ht _].
  unfold mutual_dual. cbn [snd].
  rewrite (follows_resolved id userId target_id db tu cu Ht Hc).
  rewrite (has_follower_resolved id userId target_id db tu cu Ht Hc).
  case_decide; [done|]. exact Hdual.
Qed.

Lemma follow_preserves_mutual_dual_witness :
  mutual_dual db0 "u1" "u2"
  ∧ mutual_dual (handle (ToggleFollow (Bearer "u1") "u2") db0).2 "u1" "u2".
Proof.
  assert (H : mutual_dual db0 "u1" "u2").
  { split.
    - intros (u & Hu & Hin). vm_compute in Hu. injection Hu as <-.
      simpl in Hin. by apply not_elem_of_nil in Hin.
    - intros (u & Hu & Hin). vm_compute in Hu. injection Hu as <-.
      simpl in Hin. by apply not_elem_of_nil in Hin. }
  exact (conj H (follow_preserves_mutual_dual (Bearer "u1") "u2" db0 "u1" "u2" H)).
Defined.

(** A follow request whose path identifier is, letter for letter, the
    identifier of the token is rejected with status 400 and a message, and
    the store is unchanged. *)
Lemma self_follow_rejected (userId : ObjectId) (db : Db) :
  handle (ToggleFollow (Bearer userId) userId) db
  = (res 400 (Error "Cannot follow yourself"), db).
Proof. simpl. unfold post_follow. by rewrite bool_decide_eq_true_2. Qed.

Lemma hexToLowerCase_idemp (a : ascii) :
  hexToLowerCase (hexToLowerCase a) = hexToLowerCase a.
Proof. by destruct a as [[] [] [] [] [] [] [] []]. Qed.

Lemma castObjectId_idemp (id : string) : castObjectId (castObjectId id) = castObjectId id.
Proof.
  induction id as [|a id IH]; [done|]. simpl. by rewrite hexToLowerCase_idemp, IH.
Qed.

(** A follow request that names a stored user by another rendering of its
    identifier: the guard and [includes] compare the rendering and find
    nothing, [findById] and [push] cast it. *)
Lemma post_follow_other_rendering (id currentUserId : ObjectId) (db : Db)
    (targetUser currentUser : User.t) :
  castObjectId id ≠ id →
  (∀ key, is_Some (users db !! key) → castObjectId key = key) →
  (∀ x, x ∈ User.following currentUser → castObjectId x = x) →
  users db !! castObjectId id = Some targetUser →
  users db !! currentUserId = Some currentUser →
  post_follow id currentUserId db
  = (res 200 (FollowResult true),
     mkDb (alter (set_followers (push (User.followers targetUser) currentUserId))
             (castObjectId id)
             (alter (set_following (push (User.following currentUser) (castObjectId id)))
                currentUserId (users db)))
          (poems db) (comments db)).
Proof.
  intros Hid Hkeys Hfollowing Htarget Hcurrent. unfold post_follow.
  rewrite bool_decide_eq_false_2.
  2: { intros ->. apply Hid, Hkeys. by rewrite Hcurrent. }
  rewrite (findById_cast id db Hkeys), Htarget, Hcurrent.
  assert (Hinc : includes (User.following currentUser) id = false).
  { apply includes_false. intros Hin. by apply Hid, Hfollowing. }
  by rewrite Hinc.
Qed.

(** C4 fails on the code. The guard compares the identifier of the path
    with the identifier of the token as strings.  Written with its
    hexadecimal letters in upper case, the sender's own identifier passes
    the guard and is cast to the sender's [_id] by [findById]: the request
    is answered 200 with [following: true], and the sender is stored in its
    own following and among its own followers. *)
Theorem self_follow_accepted_in_upper_case :
  let userId := "65f0a1b2c3d4e5f6a7b8c9d0" in
  let request := ToggleFollow (Bearer userId) "65F0A1B2C3D4E5F6A7B8C9D0" in
  castObjectId "65F0A1B2C3D4E5F6A7B8C9D0" = userId
  ∧ users db_hex !! userId = Some erin
  ∧ (handle request db_hex).1 = res 200 (FollowResult true)
  ∧ users (handle request db_hex).2 !! userId
    = Some (set_followers [userId] (set_following [userId] erin)).
Proof. vm_compute. done. Qed.

(** C5, as stated, fails: on the sample store the first follow request of
    ["u1"] on ["u2"] makes ["u1"] follow ["u2"], and the second one removes
    the follow again. *)
Lemma follow_twice_differs_from_once :
  users db0 !! "u1" = Some alice ∧ users db0 !! "u2" = Some bob
  ∧ ¬ follows db0 "u1" "u2"
  ∧ ¬ follow_twice_as_once db0 "u1" "u2".
Proof.
  split; [vm_compute; reflexivity|]. split; [vm_compute; reflexivity|]. split.
  { intros (u & Hu & Hin). vm_compute in Hu. injection Hu as <-.
    by apply not_elem_of_nil in Hin. }
  intros [_ H].
  destruct H as (u & Hu & Hin).
  - exists (set_following ["u2"] alice). split; [vm_compute; reflexivity|].
    simpl. apply list_elem_of_singleton. reflexivity.
  - vm_compute in Hu. injection Hu as <-. simpl in Hin.
    by apply not_elem_of_nil in Hin.
Qed.

(** C5, amended. For distinct users [a] and [b] where [a] does not follow
    [b], and requests that name [b] by the identifier it is stored under,
    the follow operation is a toggle: the first request answers
    [following: true] and makes [a] follow [b], the second one answers
    [following: false] and undoes it, so that after two requests [a] does
    not follow [b] and the following list of [a] is what it was before the
    first. *)
Theorem follow_twice_undoes (db : Db) (a b : ObjectId) (ua ub : User.t) :
  a ≠ b →
  users db !! a = Some ua →
  users db !! b = Some ub →
  b ∉ User.following ua →
  (handle (ToggleFollow (Bearer a) b) db).1 = res 200 (FollowResult true)
  ∧ follows (run [ToggleFollow (Bearer a) b] db) a b
  ∧ (handle (ToggleFollow (Bearer a) b) (run [ToggleFollow (Bearer a) b] db)).1
    = res 200 (FollowResult false)
  ∧ ¬ follows (run [ToggleFollow (Bearer a) b; ToggleFollow (Bearer a) b] db) a b
  ∧ ∃ ua2, users (run [ToggleFollow (Bearer a) b; ToggleFollow (Bearer a) b] db) !! a
           = Some ua2
           ∧ User.following ua2 = User.following ua.
Proof.
  intros Hab Ha Hb Hnot.
  assert (Hba : b ≠ a) by congruence.
  pose proof (post_follow_found b a db ub ua Hba Hb Ha) as H1.
  pose proof Hnot as Hinc. apply includes_false in Hinc.
  rewrite Hinc in H1. simpl in H1.
  unfold run. simpl. rewrite H1. simpl.
  set (ua1 := set_following (push (User.following ua) b) ua).
  set (ub1 := set_followers (push (User.followers ub) a) ub).
  set (db1 := mkDb (<[b := ub1]> (<[a := ua1]> (users db))) (poems db) (comments db)).
  assert (Hb1 : users db1 !! b = Some ub1) by apply lookup_insert_eq.
  assert (Ha1 : users db1 !! a = Some ua1).
  { simpl. rewrite lookup_insert_ne by done. apply lookup_insert_eq. }
  assert (Hin1 : b ∈ User.following ua1).
  { simpl. apply elem_of_push. by right. }
  split; [done|]. split.
  { exists ua1. done. }
  split.
  { rewrite (post_follow_found b a db1 ub1 ua1 Hba Hb1 Ha1).
    apply includes_true in Hin1. by rewrite Hin1. }
  split.
  { rewrite (follows_post_follow b a db1 ub1 ua1 Hba Hb1 Ha1).
    rewrite decide_True by done. tauto. }
  rewrite (post_follow_found b a db1 ub1 ua1 Hba Hb1 Ha1).
  apply includes_true in Hin1. rewrite Hin1. cbn [snd users].
  rewrite lookup_insert_ne by done. rewrite lookup_insert_eq.
  eexists. split; [done|]. subst ua1. cbn [User.following set_following].
  by apply pull_push_fresh.
Qed.

Lemma follow_twice_undoes_witness :
  "u1" ≠ "u2" ∧ users db0 !! "u1" = Some alice ∧ users db0 !! "u2" = Some bob
  ∧ ("u2" ∉ User.following alice)
  ∧ ¬ follows (run [ToggleFollow (Bearer "u1") "u2"; ToggleFollow (Bearer "u1") "u2"] db0)
        "u1" "u2".
Proof.
  assert (H1 : "u1" ≠ "u2") by discriminate.
  assert (H2 : users db0 !! "u1" = Some alice) by (vm_compute; reflexivity).
  assert (H3 : users db0 !! "u2" = Some bob) by (vm_compute; reflexivity).
  assert (H4 : "u2" ∉ User.following alice) by apply not_elem_of_nil.
  pose proof (follow_twice_undoes db0 "u1" "u2" alice bob H1 H2 H3 H4) as (_ & _ & _ & H & _).
  exact (conj H1 (conj H2 (conj H3 (conj H4 H)))).
Defined.

(** ** Poems *)

(** C6. A delete request of the poem's author answers 200, removes the
    poem, and removes every comment whose [poem] is the deleted poem,
    top-level or reply: the comments that remain are exactly the comments
    of the other poems. *)
Theorem delete_poem_cascades (db : Db) (id userId : ObjectId) (p : Poem.t) :
  poems db !! id = Some p →
  Poem.author p = userId →
  (handle (DeletePoem (Bearer userId) id) db).1 = res 200 (Message "Poem deleted successfully")
  ∧ poems (handle (DeletePoem (Bearer userId) id) db).2 !! id = None
  ∧ (∀ cid c, comments (handle (DeletePoem (Bearer userId) id) db).2 !! cid = Some c
              → Comment.poem c ≠ id)
  ∧ (∀ cid c, comments db !! cid = Some c → Comment.poem c = id
              → comments (handle (DeletePoem (Bearer userId) id) db).2 !! cid = None)
  ∧ (∀ cid c, comments db !! cid = Some c → Comment.poem c ≠ id
              → comments (handle (DeletePoem (Bearer userId) id) db).2 !! cid = Some c).
Proof.
  intros Hp Hauthor. simpl. unfold delete_poem. rewrite Hp.
  rewrite bool_decide_eq_false_2 by (intros H; by apply H).
  simpl. split; [done|]. split; [apply lookup_delete_eq|].
  split; [|split].
  - intros cid c [_ H]%map_lookup_filter_Some. exact H.
  - intros cid c Hc Hid. apply map_lookup_filter_None. right.
    intros c' Hc' H. simpl in H. congruence.
  - intros cid c Hc Hid. apply map_lookup_filter_Some. done.
Qed.

(** C10. A successful edit answers 200 with the stored poem, whose author,
    likes, [likes_count], [comments_count], [is_featured] and [image_url]
    are those of the poem before; a title, content or category that is
    absent from the body or is the empty string leaves the field as it
    was. *)
Theorem edit_poem_frame (db : Db) (id userId : ObjectId)
    (title content category tags : option string) (p : Poem.t) :
  poems db !! id = Some p →
  Poem.author p = userId →
  ∃ p',
    handle (UpdatePoem (Bearer userId) id title content category tags) db
    = (res 200 (OnePoem (mkPoemJson id p' (populate_author false db (Poem.author p)))),
       mkDb (users db) (<[id := p']> (poems db)) (comments db))
    ∧ Poem.author p' = Poem.author p
    ∧ Poem.likes p' = Poem.likes p
    ∧ Poem.likes_count p' = Poem.likes_count p
    ∧ Poem.comments_count p' = Poem.comments_count p
    ∧ Poem.is_featured p' = Poem.is_featured p
    ∧ Poem.image_url p' = Poem.image_url p
    ∧ (title = None ∨ title = Some "" → Poem.title p' = Poem.title p)
    ∧ (content = None ∨ content = Some "" → Poem.content p' = Poem.content p)
    ∧ (category = None ∨ category = Some "" → Poem.category p' = Poem.category p).
Proof.
  intros Hp Hauthor. exists (edit_poem title content category tags p).
  simpl. unfold put_poem. rewrite Hp.
  rewrite bool_decide_eq_false_2 by (intros H; by apply H).
  repeat split; try reflexivity; intros [-> | ->]; reflexivity.
Qed.

Example parse_tags_trims : parse_tags " a, b c ,,d " = ["a"; "b c"; ""; "d"].
Proof. reflexivity. Qed.

(** ** Comments *)

Lemma comments_count_like userId p :
  Poem.comments_count (like_poem userId p) = Poem.comments_count p.
Proof. destruct p. unfold like_poem. by destruct (includes _ _). Qed.

Local Ltac same_poem := eexists; split; [eassumption | lia].

(** No request other than the deletion of the poem itself removes a poem or
    lowers its [comments_count]. *)
Lemma comments_count_monotone (r : Request) (db : Db) (pid : ObjectId) (p : Poem.t) :
  poems db !! pid = Some p →
  (∀ auth, r ≠ DeletePoem auth pid) →
  ∃ p', poems (handle r db).2 !! pid = Some p'
        ∧ Poem.comments_count p ≤ Poem.comments_count p'.
Proof.
  intros Hp Hr. destruct r as
    [username email hashed _id now
    |auth title content category tags file _id now
    |auth id title content category tags
    |auth id
    |auth id
    |auth id content parentId _id now
    |auth id]; simpl.
  - unfold post_register.
    destruct (user_exists _ _ _); [same_poem|].
    destruct (negb _); [same_poem|].
    destruct (users db !! _id); simpl; same_poem.
  - destruct auth as [| |userId]; simpl; [same_poem..|].
    unfold post_poem. destruct (negb _); [same_poem|].
    destruct (poems db !! _id) eqn:Hnew; simpl; [same_poem|].
    rewrite lookup_insert_ne by congruence. same_poem.
  - destruct auth as [| |userId]; simpl; [same_poem..|].
    unfold put_poem. destruct (poems db !! id) as [q|] eqn:Hq; [|same_poem].
    case_bool_decide; simpl; [same_poem|].
    destruct (decide (id = pid)) as [->|Hne].
    + rewrite lookup_insert_eq. eexists. split; [done|].
      simpl. replace q with p by congruence. lia.
    + rewrite lookup_insert_ne by done. same_poem.
  - destruct auth as [| |userId]; simpl; [same_poem..|].
    unfold delete_poem. destruct (poems db !! id) as [q|] eqn:Hq; [|same_poem].
    case_bool_decide; simpl; [same_poem|].
    destruct (decide (id = pid)) as [->|Hne].
    + by destruct (Hr (Bearer userId)).
    + rewrite lookup_delete_ne by done. same_poem.
  - destruct auth as [| |userId]; simpl; [same_poem..|].
    rewrite post_like_lookup. case_decide as Hid; [|same_poem].
    subst id. rewrite Hp. simpl. eexists. split; [done|].
    rewrite comments_count_like. lia.
  - destruct auth as [| |userId]; simpl; [same_poem..|].
    unfold post_comment. destruct (negb _); [same_poem|].
    destruct (comments db !! _id); simpl; [same_poem|].
    destruct (decide (id = pid)) as [->|Hne].
    + rewrite lookup_alter_eq, Hp. simpl. eexists. split; [done|]. simpl. lia.
    + rewrite lookup_alter_ne by done. same_poem.
  - destruct auth as [| |userId]; simpl; [same_poem..|].
    unfold post_follow. repeat case_match; simpl; same_poem.
Qed.

(** C7. A comment-creation request with a content and a fresh identifier
    answers 201 with the new comment, whose replies are empty; the stored
    comment has no replies (its parent being another comment, if any); when
    a parent is supplied, the identifier of the new comment is appended to
    the replies of that parent; the [comments_count] of the poem grows by
    exactly 1, for a top-level comment and for a reply alike; and no
    request other than the deletion of a poem removes it or lowers its
    [comments_count]. *)
Theorem comment_creation (db : Db) (id userId _id : ObjectId) (content : string)
    (parentId : option string) (now : Z) :
  content ≠ "" →
  comments db !! _id = None →
  let r := CreateComment (Bearer userId) id (Some content) parentId _id now in
  (handle r db).1
  = res 201 (OneComment
      (mkCommentJson _id
         (Comment.mk id userId content (if truthy parentId then parentId else None) [] now)
         (populate_author true db userId) []))
  ∧ (parentId ≠ Some _id →
     ∃ c, comments (handle r db).2 !! _id = Some c ∧ Comment.replies c = [])
  ∧ (∀ parent pc, parentId = Some parent → parent ≠ "" →
       comments db !! parent = Some pc →
       ∃ pc', comments (handle r db).2 !! parent = Some pc'
              ∧ Comment.replies pc' = Comment.replies pc ++ [_id])
  ∧ (∀ p, poems db !! id = Some p →
       ∃ p', poems (handle r db).2 !! id = Some p'
             ∧ Poem.comments_count p' = Poem.comments_count p + 1)
  ∧ (∀ r' db' pid p, poems db' !! pid = Some p →
       (∀ auth, r' ≠ DeletePoem auth pid) →
       ∃ p', poems (handle r' db').2 !! pid = Some p'
             ∧ Poem.comments_count p ≤ Poem.comments_count p').
Proof.
  intros Hcontent Hfresh r. subst r. simpl. unfold post_comment.
  assert (Ht : truthy (Some content) = true).
  { simpl. by rewrite bool_decide_eq_false_2. }
  rewrite Ht, Hfresh. simpl.
  split; [done|]. split; [|split; [|split]].
  - intros Hself. destruct parentId as [parent|]; simpl.
    + case_bool_decide; simpl.
      * rewrite lookup_insert_eq. eauto.
      * rewrite lookup_alter_ne by congruence. rewrite lookup_insert_eq. eauto.
    + rewrite lookup_insert_eq. eauto.
  - intros parent pc -> Hparent Hpc. simpl.
    rewrite bool_decide_eq_false_2 by done. simpl.
    assert (parent ≠ _id) by congruence.
    rewrite lookup_alter_eq, lookup_insert_ne, Hpc by done. simpl. eauto.
  - intros p Hp. rewrite lookup_alter_eq, Hp. simpl. eauto.
  - intros r' db' pid p. apply comments_count_monotone.
Qed.

(** ** Queries: find, then sort *)

Section find_sort.
Context {A : Type} (m : gmap string A).
Context (P : string * A → Prop) `{∀ x, Decision (P x)}.
Context (R : relation (string * A)) `{!RelDecision R, !Transitive R, !Total R}.

Let found := merge_sort R (filter P (map_to_list m)).

Lemma find_sort_elem_of k x : (k, x) ∈ found ↔ m !! k = Some x ∧ P (k, x).
Proof.
  subst found. rewrite merge_sort_Permutation, list_elem_of_filter.
  rewrite elem_of_map_to_list. tauto.
Qed.

Lemma find_sort_NoDup : NoDup found.*1.
Proof.
  subst found. rewrite merge_sort_Permutation.
  eapply sublist_NoDup; [apply (NoDup_fst_map_to_list m)|].
  apply fmap_sublist, sublist_filter.
Qed.

Lemma find_sort_sorted : StronglySorted R found.
Proof. subst found. by apply StronglySorted_merge_sort. Qed.
End find_sort.

Global Instance created_asc_trans : Transitive created_asc.
Proof. intros a b c. unfold created_asc. lia. Qed.

Global Instance created_asc_total : Total created_asc.
Proof. intros a b. unfold created_asc. lia. Qed.

Global Instance sort_le_trans o : Transitive (sort_le o).
Proof.
  intros a b c. destruct o; simpl; try lia.
  apply (transitivity (R:=String.le)).
Qed.

Global Instance sort_le_total o : Total (sort_le o).
Proof.
  intros a b. destruct o; simpl; try lia.
  apply (total String.le).
Qed.

Lemma populated_replies_ids (db : Db) (replies : list ObjectId) :
  reply_id <$> omap (populate_reply db) replies
  = filter (λ rid, is_Some (comments db !! rid)) replies.
Proof.
  induction replies as [|rid replies IH]; [done|]. simpl.
  unfold populate_reply at 1.
  destruct (comments db !! rid) as [c|] eqn:Hrid.
  - rewrite filter_cons_True by (by rewrite Hrid). simpl. f_equal. exact IH.
  - rewrite filter_cons_False by (rewrite Hrid; by intros [? ?]). exact IH.
Qed.

(** C8. The comments query answers 200 with a list that holds, once each,
    exactly the stored comments of the poem whose parent is null, in
    ascending order of creation time.  Every entry carries its replies
    expanded one level: the expanded replies are, in the order of the
    entry's [replies] and as often as they are named there, the stored
    ones among these identifiers, each with its document as stored (whose
    own [replies] stay identifiers) and with the name and avatar of its
    author when that user is stored.  A comment with a parent is never an
    entry of the list. *)
Theorem get_comments_listing (db : Db) (id : ObjectId) :
  ∃ l : list CommentJson,
    get_comments id db = res 200 (Comments l)
    ∧ NoDup (comment_id <$> l)
    ∧ (∀ cid c, (∃ v, v ∈ l ∧ comment_id v = cid ∧ comment_doc v = c)
                ↔ comments db !! cid = Some c ∧ Comment.poem c = id
                  ∧ Comment.parent c = None)
    ∧ StronglySorted
        (λ v w, Comment.createdAt (comment_doc v) ≤ Comment.createdAt (comment_doc w)) l
    ∧ (∀ v, v ∈ l →
         reply_id <$> comment_replies v
         = filter (λ rid, is_Some (comments db !! rid)) (Comment.replies (comment_doc v))
         ∧ ∀ rj, rj ∈ comment_replies v →
             reply_id rj ∈ Comment.replies (comment_doc v)
             ∧ comments db !! reply_id rj = Some (reply_doc rj)
             ∧ reply_author rj
               = (λ u, mkAuthor (Comment.author (reply_doc rj)) (User.username u)
                         (Some (User.avatar_url u)))
                 <$> users db !! Comment.author (reply_doc rj))
    ∧ (∀ cid c, comments db !! cid = Some c → Comment.parent c ≠ None →
         cid ∉ comment_id <$> l).
Proof.
  eexists. split; [reflexivity|].
  set (found := merge_sort created_asc (filter (top_level id) (map_to_list (comments db)))).
  assert (Hin : ∀ cid c, (∃ v, v ∈ populate_comment db <$> found
                               ∧ comment_id v = cid ∧ comment_doc v = c)
                         ↔ comments db !! cid = Some c ∧ Comment.poem c = id
                           ∧ Comment.parent c = None).
  { intros cid c. rewrite <- (find_sort_elem_of (comments db) (top_level id) created_asc).
    fold found. split.
    - intros (v & Hv & <- & <-). apply list_elem_of_fmap in Hv as ([k x] & -> & Hkx).
      exact Hkx.
    - intros Hkc. exists (populate_comment db (cid, c)).
      split; [|done]. by apply list_elem_of_fmap_2. }
  split; [|split; [exact Hin|split; [|split]]].
  - rewrite <- list_fmap_compose.
    apply (find_sort_NoDup (comments db) (top_level id) created_asc).
  - apply (StronglySorted_fmap _ created_asc); [auto|].
    apply find_sort_sorted; apply _.
  - intros v Hv. apply list_elem_of_fmap in Hv as ([k x] & -> & Hkx). simpl.
    split; [apply populated_replies_ids|]. intros rj Hrj.
    apply list_elem_of_omap in Hrj as (rid & Hrid & Hpop).
    unfold populate_reply in Hpop.
    destruct (comments db !! rid) as [rc|] eqn:Hrc; [|done].
    injection Hpop as <-. simpl. split; [done|]. split; [done|].
    unfold populate_author. by destruct (users db !! Comment.author rc).
  - intros cid c Hc Hparent Hcid.
    apply list_elem_of_fmap in Hcid as (v & -> & Hv).
    assert (H : comments db !! comment_id v = Some (comment_doc v)
                ∧ Comment.poem (comment_doc v) = id
                ∧ Comment.parent (comment_doc v) = None).
    { apply Hin. eauto. }
    destruct H as (Hdoc & _ & Hnone). congruence.
Qed.

Example comments_of_p1 :
  get_comments "p1" db1
  = res 200 (Comments
      [mkCommentJson "c1" (Comment.mk "p1" "u2" "Lovely" None ["c2"] 30)
         (Some (mkAuthor "u2" "bob" (Some "")))
         [mkReplyJson "c2" (Comment.mk "p1" "u1" "Thank you" (Some "c1") [] 40)
            (Some (mkAuthor "u1" "alice" (Some "")))]]).
Proof. vm_compute. reflexivity. Qed.

(** ** The poem listing *)

Lemma search_matches_spec re p : search_matches re p = true ↔ regexp_search re p.
Proof.
  unfold search_matches, regexp_search.
  rewrite !orb_true_iff, existsb_exists.
  setoid_rewrite <- list_elem_of_In. tauto.
Qed.

Lemma poems_filter_refused RegExp_i q :
  search_refused RegExp_i q → poems_filter RegExp_i q = None.
Proof.
  intros (s & Hs & Hne & Hre). unfold poems_filter. rewrite Hs. simpl.
  rewrite bool_decide_eq_false_2 by done. simpl. by rewrite Hre.
Qed.

Lemma poems_filter_selected RegExp_i q :
  ¬ search_refused RegExp_i q →
  ∃ query, poems_filter RegExp_i q = Some query
           ∧ ∀ kp, query kp = true ↔ selected RegExp_i q kp.2.
Proof.
  intros Hok. unfold poems_filter, selected.
  set (by_category := match category q with
                      | Some c => if truthy (category q)
                                  then λ p, bool_decide (Poem.category p = c)
                                  else λ _, true
                      | None => λ _, true
                      end).
  assert (Hcat : ∀ p, by_category p = true
                      ↔ ∀ c, category q = Some c → c ≠ "" → Poem.category p = c).
  { intros p. subst by_category. destruct (category q) as [c|]; simpl.
    - destruct (decide (c = "")) as [->|Hc].
      + rewrite bool_decide_eq_true_2 by done. simpl.
        split; [|done]. intros _ c' [= <-] Hc'. done.
      + rewrite bool_decide_eq_false_2 by done. simpl.
        rewrite bool_decide_eq_true. split.
        * intros Hp c' [= <-] _. done.
        * intros Hp. by apply Hp.
    - split; [|done]. intros _ c' [=]. }
  destruct (search q) as [s|] eqn:Hs; simpl.
  - destruct (decide (s = "")) as [->|Hne].
    + rewrite bool_decide_eq_true_2 by done. simpl.
      eexists. split; [done|]. intros kp. rewrite Hcat.
      split; [|tauto]. intros Hc. split; [done|]. intros s' [= <-] Hs'. done.
    + rewrite bool_decide_eq_false_2 by done. simpl.
      destruct (RegExp_i s) as [re|] eqn:Hre.
      * eexists. split; [done|]. intros kp.
        rewrite andb_true_iff, Hcat, search_matches_spec. split.
        -- intros [Hc Hm]. split; [done|]. intros s' [= <-] _. eauto.
        -- intros [Hc Hm]. split; [done|].
           destruct (Hm s eq_refl Hne) as (re' & Hre2 & Hre').
           rewrite Hre in Hre2. by injection Hre2 as <-.
      * destruct Hok. exists s. done.
  - eexists. split; [done|]. intros kp. rewrite Hcat.
    split; [|tauto]. intros Hc. split; [done|]. intros s' [=].
Qed.

Lemma sortQuery_ordered sort (l : list (ObjectId * Poem.t)) (f : ObjectId * Poem.t → PoemJson) :
  (∀ kp, poem_doc (f kp) = kp.2) →
  StronglySorted (sort_le (sortQuery sort)) l →
  ordered sort (f <$> l).
Proof.
  intros Hf Hsorted. unfold ordered. repeat split.
  - intros ->. revert Hsorted. apply StronglySorted_fmap. intros x y. by rewrite !Hf.
  - intros ->. revert Hsorted. apply StronglySorted_fmap. intros x y. by rewrite !Hf.
  - intros ->. revert Hsorted. apply StronglySorted_fmap. intros x y. by rewrite !Hf.
  - intros H1 H2 H3. revert Hsorted. unfold sortQuery.
    rewrite !bool_decide_eq_false_2 by done.
    apply StronglySorted_fmap. intros x y. by rewrite !Hf.
Qed.

(** C9, as stated, fails: the search parameter is a regular expression.
    On the sample store the search [.] lists the poem "Sonnet", which has
    no full stop in its title, its content or its tags. *)
Lemma search_dot_lists_poems_without_dot :
  ¬ search_is_containment simple_RegExp_i (mkQuery None (Some ".") None None None) db0.
Proof.
  intros H.
  specialize (H "."
    [mkPoemJson "p2" sonnet (Some (mkAuthor "u2" "bob" None));
     mkPoemJson "p1" ode (Some (mkAuthor "u1" "alice" None))]
    (mkPoemJson "p2" sonnet (Some (mkAuthor "u2" "bob" None)))).
  assert (Hdot : ∀ s, bool_decide ("."%char ∈ toLowerCase <$> list_ascii_of_string s) = false
                      → ¬ contains_ci "." s).
  { intros s Hs (before & after & Heq). apply bool_decide_eq_false in Hs.
    apply Hs. rewrite Heq, elem_of_app. right. by left. }
  destruct H as [H|[H|(tag & Htag & H)]].
  - reflexivity.
  - discriminate.
  - vm_compute. reflexivity.
  - by left.
  - refine (Hdot _ _ H). vm_compute. reflexivity.
  - refine (Hdot _ _ H). vm_compute. reflexivity.
  - simpl in Htag.
    apply elem_of_cons in Htag as [->|Htag];
      [|apply list_elem_of_singleton in Htag as ->];
      refine (Hdot _ _ H); vm_compute; reflexivity.
Qed.

(** The bound [limit = 0] is no bound: the whole listing is returned. *)
Example limit_zero_lists_everything :
  ∃ l, get_poems simple_RegExp_i (mkQuery None None None (Some 0) None) db0
       = res 200 (Poems l) ∧ length l = 2%nat.
Proof. eexists. split; [vm_compute; reflexivity|reflexivity]. Qed.

(** C9, amended. For a request with [limit ≥ 1] and [page ≥ 1] (20 and 1
    when absent): if the search parameter is given and is not a regular
    expression the answer is an error 500; otherwise the answer is 200 with
    the poems [(page-1)*limit, page*limit) of the whole listing, hence at
    most [limit] poems, all of them of the listing, where the listing holds
    once each stored poem that has exactly the category of the query, when
    one is given, and that the search parameter, when one is given,
    matches as a case-insensitive regular expression in the title, the
    content or some tag; the listing is ordered by [likes_count] descending
    for [popular], by [comments_count] descending for [commented], by
    title ascending for [alphabetical], and by creation time descending
    otherwise. *)
Theorem get_poems_listing (RegExp_i : string → option (string → bool))
    (q : PoemsQuery) (db : Db) :
  1 ≤ default 20 (limit q) →
  1 ≤ default 1 (page q) →
  (search_refused RegExp_i q → get_poems RegExp_i q db = res 500 (Caught RegExpError))
  ∧ (¬ search_refused RegExp_i q →
     ∃ all l : list PoemJson,
       listing RegExp_i q db all
       ∧ get_poems RegExp_i q db = res 200 (Poems l)
       ∧ l = take (Z.to_nat (default 20 (limit q)))
               (drop (Z.to_nat ((default 1 (page q) - 1) * default 20 (limit q))) all)
       ∧ (length l ≤ Z.to_nat (default 20%Z (limit q)))%nat
       ∧ (∀ v, v ∈ l → v ∈ all)).
Proof.
  intros Hlimit Hpage. split.
  { intros Hrefused. unfold get_poems. by rewrite poems_filter_refused. }
  intros Hok. destruct (poems_filter_selected RegExp_i q Hok) as (query & Hquery & Hsel).
  set (mk := λ kp : ObjectId * Poem.t,
               mkPoemJson kp.1 kp.2 (populate_author false db (Poem.author kp.2))).
  set (sorted := merge_sort (sort_le (sortQuery (sort q)))
                   (filter (λ kp, query kp = true) (map_to_list (poems db)))).
  exists (mk <$> sorted). eexists. split; [|split; [|split; [reflexivity|split]]].
  - split; [|split].
    + rewrite <- list_fmap_compose.
      apply (find_sort_NoDup (poems db) (λ kp, query kp = true)
               (sort_le (sortQuery (sort q)))).
    + intros v. rewrite list_elem_of_fmap. split.
      * intros ([k p] & -> & Hkp).
        apply (find_sort_elem_of (poems db) (λ kp, query kp = true)) in Hkp as [Hk Hp].
        simpl. split; [done|]. split; [|done]. by apply (Hsel (k, p)).
      * intros (Hdoc & Hselected & Hauthor). exists (poem_id v, poem_doc v). split.
        -- destruct v as [k p a]. simpl in *. by subst a.
        -- apply (find_sort_elem_of (poems db) (λ kp, query kp = true)).
           split; [done|]. by apply Hsel.
    + apply sortQuery_ordered; [done|]. apply find_sort_sorted; apply _.
  - unfold get_poems. rewrite Hquery. fold sorted. unfold mongo_skip, mongo_limit.
    rewrite bool_decide_eq_false_2 by nia.
    rewrite bool_decide_eq_false_2 by lia.
    replace (Z.abs_nat (default 20 (limit q) * 1)) with (Z.to_nat (default 20 (limit q))) by lia.
    fold mk. by rewrite fmap_take, fmap_drop.
  - rewrite length_take. lia.
  - intros v Hv. eapply elem_of_sublist; [exact Hv|].
    etrans; [apply sublist_take|apply sublist_drop].
Qed.

Lemma get_poems_listing_witness :
  let q := mkQuery (Some "love") (Some "s.n") (Some "alphabetical") (Some 10) (Some 1) in
  1 ≤ default 20 (limit q) ∧ 1 ≤ default 1 (page q)
  ∧ ∃ all l : list PoemJson,
      listing simple_RegExp_i q db0 all
      ∧ get_poems simple_RegExp_i q db0 = res 200 (Poems l)
      ∧ l = take 10 (drop 0 all).
Proof.
  intros q.
  assert (H1 : 1 ≤ default 20 (limit q)) by (vm_compute; discriminate).
  assert (H2 : 1 ≤ default 1 (page q)) by (vm_compute; discriminate).
  assert (H3 : ¬ search_refused simple_RegExp_i q).
  { intros (s & Hs & _ & Hnone). injection Hs as <-. vm_compute in Hnone. discriminate. }
  destruct (get_poems_listing simple_RegExp_i q db0 H1 H2) as [_ H].
  destruct (H H3) as (all & l & Hall & Hget & Hl & _).
  exact (conj H1 (conj H2 (ex_intro _ all (ex_intro _ l (conj Hall (conj Hget Hl)))))).
Defined.

Lemma delete_poem_cascades_witness :
  let p := inc_comments_count (inc_comments_count ode) in
  poems db1 !! "p1" = Some p ∧ Poem.author p = "u1"
  ∧ poems (handle (DeletePoem (Bearer "u1") "p1") db1).2 !! "p1" = None
  ∧ ∀ cid c, comments (handle (DeletePoem (Bearer "u1") "p1") db1).2 !! cid = Some c
             → Comment.poem c ≠ "p1".
Proof.
  intros p.
  assert (H1 : poems db1 !! "p1" = Some p) by (vm_compute; reflexivity).
  assert (H2 : Poem.author p = "u1") by reflexivity.
  destruct (delete_poem_cascades db1 "p1" "u1" p H1 H2) as (_ & Hgone & Hnone & _).
  exact (conj H1 (conj H2 (conj Hgone Hnone))).
Defined.

Lemma edit_poem_frame_witness :
  poems db0 !! "p1" = Some ode ∧ Poem.author ode = "u1"
  ∧ ∃ p', (handle (UpdatePoem (Bearer "u1") "p1" (Some "") (Some "To spring") None
                     (Some "season, spring")) db0).1
          = res 200 (OnePoem (mkPoemJson "p1" p' (populate_author false db0 "u1")))
          ∧ Poem.title p' = "Ode" ∧ Poem.category p' = "nature"
          ∧ Poem.likes_count p' = 0.
Proof.
  assert (H1 : poems db0 !! "p1" = Some ode) by (vm_compute; reflexivity).
  assert (H2 : Poem.author ode = "u1") by reflexivity.
  destruct (edit_poem_frame db0 "p1" "u1" (Some "") (Some "To spring") None
              (Some "season, spring") ode H1 H2)
    as (p' & Hres & _ & _ & Hcount & _ & _ & _ & Htitle & _ & Hcategory).
  refine (conj H1 (conj H2 (ex_intro _ p' (conj _ (conj _ (conj _ Hcount)))))).
  - by rewrite Hres.
  - apply Htitle. by right.
  - apply Hcategory. by left.
Defined.

Lemma comment_creation_witness :
  "Indeed" ≠ "" ∧ comments db1 !! "c4" = None
  ∧ (∀ pc, comments db1 !! "c1" = Some pc →
       ∃ pc', comments (handle (CreateComment (Bearer "u1") "p1" (Some "Indeed")
                                  (Some "c1") "c4" 60) db1).2 !! "c1" = Some pc'
              ∧ Comment.replies pc' = Comment.replies pc ++ ["c4"])
  ∧ (∀ p, poems db1 !! "p1" = Some p →
       ∃ p', poems (handle (CreateComment (Bearer "u1") "p1" (Some "Indeed")
                              (Some "c1") "c4" 60) db1).2 !! "p1" = Some p'
             ∧ Poem.comments_count p' = Poem.comments_count p + 1).
Proof.
  assert (H1 : "Indeed" ≠ "") by discriminate.
  assert (H2 : comments db1 !! "c4" = None) by (vm_compute; reflexivity).
  destruct (comment_creation db1 "p1" "u1" "c4" "Indeed" (Some "c1") 60 H1 H2)
    as (_ & _ & Hparent & Hcount & _).
  refine (conj H1 (conj H2 (conj _ Hcount))).
  intros pc Hpc. apply (Hparent "c1" pc); [reflexivity|discriminate|exact Hpc].
Defined.

(** ** The small engine on literal patterns

    On a pattern without metacharacters the engine is the search of the
    pattern as a substring, without regard to case. *)

Lemma compile_atoms_literal (pattern : string) :
  Forall (λ a, is_meta a = false) (list_ascii_of_string pattern) →
  compile_atoms pattern = Some (Lit <$> list_ascii_of_string pattern).
Proof.
  induction pattern as [|a rest IH]; simpl; intros Hlit; [done|].
  apply Forall_cons in Hlit as [Ha Hrest].
  rewrite bool_decide_eq_false_2 by (intros ->; discriminate Ha).
  rewrite Ha, (IH Hrest). done.
Qed.

Lemma match_here_literal (t : list ascii) (s : string) :
  match_here (Lit <$> t) s = true ↔
  ∃ after, toLowerCase <$> list_ascii_of_string s = (toLowerCase <$> t) ++ after.
Proof.
  revert s. induction t as [|a t IH]; intros s.
  - split; [eauto|done].
  - rewrite !fmap_cons. destruct s as [|b s]; cbn [match_here].
    + split; [done|]. intros (after & Heq). discriminate Heq.
    + change (list_ascii_of_string (String b s)) with (b :: list_ascii_of_string s).
      rewrite fmap_cons, andb_true_iff, bool_decide_eq_true, IH. split.
      * intros (Hab & after & Heq). exists after. by rewrite Hab, Heq.
      * intros (after & Heq). rewrite <- app_comm_cons in Heq.
        injection Heq as Hab Heq. eauto.
Qed.

Lemma match_anywhere_literal (t : list ascii) (s : string) :
  match_anywhere (Lit <$> t) s = true ↔
  ∃ before after,
    toLowerCase <$> list_ascii_of_string s = before ++ (toLowerCase <$> t) ++ after.
Proof.
  induction s as [|b s IH].
  - cbn [match_anywhere]. rewrite orb_false_r, match_here_literal. split.
    + intros (after & Heq). exists [], after. done.
    + intros (before & after & Heq). simpl in Heq.
      symmetry in Heq. apply app_eq_nil in Heq as [-> Heq]. exists after. by rewrite Heq.
  - cbn [match_anywhere]. rewrite orb_true_iff, match_here_literal, IH.
    change (list_ascii_of_string (String b s)) with (b :: list_ascii_of_string s).
    rewrite fmap_cons. split.
    + intros [(after & Heq)|(before & after & Heq)].
      * exists [], after. done.
      * exists (toLowerCase b :: before), after. rewrite Heq. done.
    + intros (before & after & Heq). destruct before as [|x before].
      * left. eauto.
      * right. rewrite <- app_comm_cons in Heq. injection Heq as _ Heq. eauto.
Qed.

Lemma simple_RegExp_i_literal (pattern : string) :
  Forall (λ a, is_meta a = false) (list_ascii_of_string pattern) →
  ∃ re, simple_RegExp_i pattern = Some re ∧ ∀ s, re s = true ↔ contains_ci pattern s.
Proof.
  intros Hlit. unfold simple_RegExp_i. rewrite (compile_atoms_literal pattern Hlit).
  eexists. split; [done|]. intros s. apply match_anywhere_literal.
Qed.

Example search_summer_matches_tag :
  ∃ re, simple_RegExp_i "SUM" = Some re ∧ regexp_search re sonnet.
Proof.
  eexists. split; [reflexivity|]. right. right. exists "summer".
  split; [by left|reflexivity].
Qed.

(** * Further theorems *)

(** ** What every request keeps *)

Local Ltac handler_cases :=
  unfold handle, authenticateToken, post_register, post_poem, put_poem, delete_poem,
    post_like, post_comment, post_follow;
  repeat case_match; simpl in *.

(** X1. A request to a route behind the authentication middleware that
    carries no token is answered 401, one with a token that does not verify
    403, and neither changes the store. *)
Theorem unauthenticated_rejected (r : Request) (db : Db) (auth : Authorization) :
  credentials r = Some auth →
  (∀ userId, auth ≠ Bearer userId) →
  (handle r db).2 = db
  ∧ (handle r db).1
    = match auth with
      | NoToken => res 401 (Error "Access token required")
      | _ => res 403 (Error "Invalid token")
      end.
Proof.
  intros Hr Hauth.
  destruct r; simpl in Hr; simplify_eq; destruct auth; simpl; try done;
    by destruct (Hauth userId).
Qed.

Lemma unauthenticated_rejected_witness :
  credentials (DeletePoem InvalidToken "p1") = Some InvalidToken
  ∧ (∀ userId, InvalidToken ≠ Bearer userId)
  ∧ handle (DeletePoem InvalidToken "p1") db0 = (res 403 (Error "Invalid token"), db0).
Proof.
  assert (H1 : credentials (DeletePoem InvalidToken "p1") = Some InvalidToken)
    by reflexivity.
  assert (H2 : ∀ userId, InvalidToken ≠ Bearer userId) by discriminate.
  destruct (unauthenticated_rejected (DeletePoem InvalidToken "p1") db0 InvalidToken H1 H2)
    as [Hdb Hres].
  refine (conj H1 (conj H2 _)).
  rewrite (surjective_pairing (handle _ _)), Hdb, Hres. reflexivity.
Defined.

(** X2. A request that is not answered 200 or 201 leaves the store as it
    was: every handler checks before it writes. *)
Theorem error_leaves_store (r : Request) (db : Db) :
  status (handle r db).1 ≠ 200 →
  status (handle r db).1 ≠ 201 →
  (handle r db).2 = db.
Proof.
  intros H200 H201. revert H200 H201. destruct r; handler_cases; done.
Qed.

Lemma error_leaves_store_witness :
  status (handle (CreateComment (Bearer "u1") "p1" (Some "") None "c9" 60) db1).1 ≠ 200
  ∧ status (handle (CreateComment (Bearer "u1") "p1" (Some "") None "c9" 60) db1).1 ≠ 201
  ∧ (handle (CreateComment (Bearer "u1") "p1" (Some "") None "c9" 60) db1).2 = db1.
Proof.
  assert (H1 : status (handle (CreateComment (Bearer "u1") "p1" (Some "") None "c9" 60)
                         db1).1 ≠ 200) by (vm_compute; discriminate).
  assert (H2 : status (handle (CreateComment (Bearer "u1") "p1" (Some "") None "c9" 60)
                         db1).1 ≠ 201) by (vm_compute; discriminate).
  exact (conj H1 (conj H2 (error_leaves_store _ db1 H1 H2))).
Defined.


(** The ways a stored poem changes under one request. *)
Lemma poem_step (r : Request) (db : Db) (id : ObjectId) (p p' : Poem.t) :
  poems db !! id = Some p →
  poems (handle r db).2 !! id = Some p' →
  p' = p
  ∨ (∃ title content category tags,
       r = UpdatePoem (Bearer (Poem.author p)) id title content category tags
       ∧ p' = edit_poem title content category tags p)
  ∨ (∃ userId, r = ToggleLike (Bearer userId) id ∧ p' = like_poem userId p)
  ∨ (∃ userId content parentId _id now,
       r = CreateComment (Bearer userId) id content parentId _id now
       ∧ p' = inc_comments_count p).
Proof.
  intros Hp Hp'.
  destruct r as
    [username email hashed _id now
    |auth title content category tags file _id now
    |auth i title content category tags
    |auth i
    |auth i
    |auth i content parentId _id now
    |auth i]; simpl in Hp'.
  - left. revert Hp'. unfold post_register. repeat case_match; simpl; congruence.
  - left. revert Hp'. unfold authenticateToken, post_poem.
    repeat case_match; simpl; try congruence.
    all: rewrite lookup_insert_ne by congruence; congruence.
  - revert Hp'. unfold authenticateToken, put_poem.
    repeat case_match; simpl; try (left; congruence).
    destruct (decide (i = id)) as [->|Hne].
    + rewrite lookup_insert_eq. intros [= <-]. right. left.
      simplify_eq. exists title, content, category, tags.
      split; [|done]. f_equal. f_equal.
      match goal with H : bool_decide _ = false |- _ =>
        apply bool_decide_eq_false in H; by apply dec_stable in H end.
    + rewrite lookup_insert_ne by done. left. congruence.
  - left. revert Hp'. unfold authenticateToken, delete_poem.
    repeat case_match; simpl; try congruence.
    destruct (decide (i = id)) as [->|Hne].
    + by rewrite lookup_delete_eq.
    + rewrite lookup_delete_ne by done. congruence.
  - destruct auth as [| |userId]; simpl in Hp'; [left; congruence..|].
    rewrite post_like_lookup in Hp'. case_decide as Hid.
    + subst i. rewrite Hp in Hp'. injection Hp' as <-. right. right. left. eauto.
    + left. congruence.
  - revert Hp'. unfold authenticateToken, post_comment.
    repeat case_match; simpl; try (left; congruence).
    all: destruct (decide (i = id)) as [->|Hne];
      [rewrite lookup_alter_eq, Hp; simpl; intros [= <-]; right; right; right;
       by eauto 10
      |rewrite lookup_alter_ne by done; left; congruence].
  - left. revert Hp'. unfold authenticateToken, post_follow.
    repeat case_match; simpl; congruence.
Qed.

(** X3. Whatever the request, a poem that stays in the store keeps its
    author, its image, its featured flag and its creation time. *)
Theorem poem_identity_fixed (r : Request) (db : Db) (id : ObjectId) (p p' : Poem.t) :
  poems db !! id = Some p →
  poems (handle r db).2 !! id = Some p' →
  Poem.author p' = Poem.author p
  ∧ Poem.image_url p' = Poem.image_url p
  ∧ Poem.is_featured p' = Poem.is_featured p
  ∧ Poem.createdAt p' = Poem.createdAt p.
Proof.
  intros Hp Hp'.
  destruct (poem_step r db id p p' Hp Hp')
    as [->|[(t & c & cat & tg & _ & ->)|[(u & _ & ->)|(u & c & pa & i & n & _ & ->)]]];
    try done.
  destruct p. unfold like_poem. by destruct (includes _ _).
Qed.

(** X4. The title, content, category or tags of a stored poem change only
    under an edit request that carries the token of the poem's author. *)
Theorem only_author_edits (r : Request) (db : Db) (id : ObjectId) (p p' : Poem.t) :
  poems db !! id = Some p →
  poems (handle r db).2 !! id = Some p' →
  (Poem.title p', Poem.content p', Poem.category p', Poem.tags p')
  ≠ (Poem.title p, Poem.content p, Poem.category p, Poem.tags p) →
  ∃ title content category tags,
    r = UpdatePoem (Bearer (Poem.author p)) id title content category tags.
Proof.
  intros Hp Hp' Hchanged.
  destruct (poem_step r db id p p' Hp Hp')
    as [->|[(t & c & cat & tg & -> & _)|[(u & _ & ->)|(u & c & pa & i & n & _ & ->)]]];
    [done|by eauto|..].
  - destruct Hchanged. destruct p. unfold like_poem. by destruct (includes _ _).
  - by destruct Hchanged.
Qed.

(** X5. A stored poem leaves the store only under a delete request that
    carries the token of its author. *)
Theorem only_author_deletes (r : Request) (db : Db) (id : ObjectId) (p : Poem.t) :
  poems db !! id = Some p →
  poems (handle r db).2 !! id = None →
  r = DeletePoem (Bearer (Poem.author p)) id.
Proof.
  intros Hp Hgone.
  assert (Hdel : ∃ auth, r = DeletePoem auth id).
  { destruct r as [| | |auth i| | |].
    4: { destruct (decide (i = id)) as [->|Hne]; [by eauto|].
         destruct (comments_count_monotone (DeletePoem auth i) db id p Hp)
           as (p' & Hp' & _); congruence. }
    all: match goal with
         | Hq : poems ?d !! ?i = Some ?q, Hg : poems (handle ?r ?d).2 !! ?i = None |- _ =>
             destruct (comments_count_monotone r d i q Hq) as (p' & Hp' & _);
               [intros ?; discriminate|congruence]
         end. }
  destruct Hdel as [auth ->].
  revert Hgone. simpl. unfold authenticateToken, delete_poem.
  repeat case_match; simpl; try congruence. intros _. simplify_eq.
  match goal with H : bool_decide _ = false |- _ =>
    apply bool_decide_eq_false in H; apply dec_stable in H; by rewrite H end.
Qed.

Lemma poem_identity_fixed_witness :
  poems db0 !! "p1" = Some ode
  ∧ poems (handle (ToggleLike (Bearer "u2") "p1") db0).2 !! "p1" = Some (like_poem "u2" ode)
  ∧ Poem.author (like_poem "u2" ode) = Poem.author ode.
Proof.
  assert (H1 : poems db0 !! "p1" = Some ode) by (vm_compute; reflexivity).
  assert (H2 : poems (handle (ToggleLike (Bearer "u2") "p1") db0).2 !! "p1"
               = Some (like_poem "u2" ode)) by (vm_compute; reflexivity).
  exact (conj H1 (conj H2 (proj1 (poem_identity_fixed _ db0 "p1" ode _ H1 H2)))).
Defined.

Lemma only_author_edits_witness :
  let r := UpdatePoem (Bearer "u1") "p1" (Some "Hymn") None None None in
  let p' := edit_poem (Some "Hymn") None None None ode in
  poems db0 !! "p1" = Some ode
  ∧ poems (handle r db0).2 !! "p1" = Some p'
  ∧ (Poem.title p', Poem.content p', Poem.category p', Poem.tags p')
    ≠ (Poem.title ode, Poem.content ode, Poem.category ode, Poem.tags ode)
  ∧ ∃ title content category tags,
      r = UpdatePoem (Bearer (Poem.author ode)) "p1" title content category tags.
Proof.
  intros r p'.
  assert (H1 : poems db0 !! "p1" = Some ode) by (vm_compute; reflexivity).
  assert (H2 : poems (handle r db0).2 !! "p1" = Some p') by (vm_compute; reflexivity).
  assert (H3 : (Poem.title p', Poem.content p', Poem.category p', Poem.tags p')
               ≠ (Poem.title ode, Poem.content ode, Poem.category ode, Poem.tags ode))
    by (vm_compute; discriminate).
  exact (conj H1 (conj H2 (conj H3 (only_author_edits r db0 "p1" ode p' H1 H2 H3)))).
Defined.

Lemma only_author_deletes_witness :
  poems db0 !! "p1" = Some ode
  ∧ poems (handle (DeletePoem (Bearer "u1") "p1") db0).2 !! "p1" = None
  ∧ DeletePoem (Bearer "u1") "p1" = DeletePoem (Bearer (Poem.author ode)) "p1".
Proof.
  assert (H1 : poems db0 !! "p1" = Some ode) by (vm_compute; reflexivity).
  assert (H2 : poems (handle (DeletePoem (Bearer "u1") "p1") db0).2 !! "p1" = None)
    by (vm_compute; reflexivity).
  exact (conj H1 (conj H2 (only_author_deletes _ db0 "p1" ode H1 H2))).
Defined.

Lemma follow_alters_lookup (followers' following' : list ObjectId)
    (target_id currentUserId k : ObjectId) (m : gmap string User.t) :
  alter (set_followers followers') target_id
    (alter (set_following following') currentUserId m) !! k
  = (λ u, (if decide (target_id = k) then set_followers followers' else id)
            ((if decide (currentUserId = k) then set_following following' else id) u))
    <$> m !! k.
Proof.
  rewrite !lookup_alter. repeat case_decide; subst; destruct (m !! k); done.
Qed.

(** X6. No request removes a user or changes a user's name, email,
    password, bio, avatar or creation time: only the two follow lists of a
    stored user ever change. *)
Theorem users_persist (r : Request) (db : Db) (id : ObjectId) (u : User.t) :
  users db !! id = Some u →
  ∃ u', users (handle r db).2 !! id = Some u'
        ∧ User.username u' = User.username u
        ∧ User.email u' = User.email u
        ∧ User.password u' = User.password u
        ∧ User.bio u' = User.bio u
        ∧ User.avatar_url u' = User.avatar_url u
        ∧ User.createdAt u' = User.createdAt u.
Proof.
  intros Hu.
  destruct r as
    [username email hashed _id now
    |auth title content category tags file _id now
    |auth i title content category tags
    |auth i
    |auth i
    |auth i content parentId _id now
    |auth i]; simpl.
  - unfold post_register. repeat case_match; simpl; eauto 10.
    rewrite lookup_insert_ne by congruence. eauto 10.
  - unfold authenticateToken, post_poem. repeat case_match; simpl; eauto 10.
  - unfold authenticateToken, put_poem. repeat case_match; simpl; eauto 10.
  - unfold authenticateToken, delete_poem. repeat case_match; simpl; eauto 10.
  - unfold authenticateToken, post_like. repeat case_match; simpl; eauto 10.
  - unfold authenticateToken, post_comment. repeat case_match; simpl; eauto 10.
  - unfold authenticateToken, post_follow. repeat case_match; simpl; eauto 10.
    all: rewrite follow_alters_lookup, Hu; simpl; eexists; split; [done|];
      repeat case_decide; done.
Qed.

Lemma users_persist_witness :
  users db0 !! "u2" = Some bob
  ∧ ∃ u', users (handle (ToggleFollow (Bearer "u1") "u2") db0).2 !! "u2" = Some u'
          ∧ User.username u' = "bob" ∧ User.email u' = "bob@example.org".
Proof.
  assert (H1 : users db0 !! "u2" = Some bob) by (vm_compute; reflexivity).
  destruct (users_persist (ToggleFollow (Bearer "u1") "u2") db0 "u2" bob H1)
    as (u' & Hu' & Hname & Hemail & _).
  exact (conj H1 (ex_intro _ u' (conj Hu' (conj Hname Hemail)))).
Defined.

(** X7. A stored comment leaves the store only under a delete request for
    its poem; otherwise it keeps its poem, author, content, parent and
    creation time, and its replies are as before or extended at the end
    by one identifier. *)
Theorem comments_persist (r : Request) (db : Db) (cid : ObjectId) (c : Comment.t) :
  comments db !! cid = Some c →
  (∃ c', comments (handle r db).2 !! cid = Some c'
         ∧ Comment.poem c' = Comment.poem c
         ∧ Comment.author c' = Comment.author c
         ∧ Comment.content c' = Comment.content c
         ∧ Comment.parent c' = Comment.parent c
         ∧ Comment.createdAt c' = Comment.createdAt c
         ∧ (Comment.replies c' = Comment.replies c
            ∨ ∃ rid, Comment.replies c' = Comment.replies c ++ [rid]))
  ∨ (∃ auth, r = DeletePoem auth (Comment.poem c)).
Proof.
  intros Hc.
  destruct r as
    [username email hashed _id now
    |auth title content category tags file _id now
    |auth i title content category tags
    |auth i
    |auth i
    |auth i content parentId _id now
    |auth i]; simpl.
  - left. unfold post_register. repeat case_match; simpl; eauto 10.
  - left. unfold authenticateToken, post_poem. repeat case_match; simpl; eauto 10.
  - left. unfold authenticateToken, put_poem. repeat case_match; simpl; eauto 10.
  - destruct (decide (Comment.poem c = i)) as [<-|Hne]; [right; eauto|].
    left. unfold authenticateToken, delete_poem. repeat case_match; simpl; eauto 10.
    exists c. split; [|by eauto 10]. by apply map_lookup_filter_Some.
  - left. unfold authenticateToken, post_like. repeat case_match; simpl; eauto 10.
  - left. unfold authenticateToken, post_comment. repeat case_match; simpl; eauto 10.
    all: try (rewrite lookup_insert_ne by congruence; by eauto 10).
    all: match goal with |- context [alter _ ?parent _ !! _] =>
           destruct (decide (parent = cid)) as [->|Hp];
             [rewrite lookup_alter_eq, lookup_insert_ne, Hc by congruence; simpl;
              eexists; split; [done|]; unfold push; by eauto 10
             |rewrite lookup_alter_ne, lookup_insert_ne by congruence; by eauto 10]
         end.
  - left. unfold authenticateToken, post_follow. repeat case_match; simpl; eauto 10.
Qed.

Lemma comments_persist_witness :
  ∃ c, comments db1 !! "c1" = Some c
       ∧ ∃ c', comments (handle (CreateComment (Bearer "u2") "p1" (Some "Yes") (Some "c1")
                                   "c4" 60) db1).2 !! "c1" = Some c'
               ∧ Comment.content c' = Comment.content c.
Proof.
  assert (H1 : comments db1 !! "c1" = Some (Comment.mk "p1" "u2" "Lovely" None ["c2"] 30))
    by (vm_compute; reflexivity).
  destruct (comments_persist
              (CreateComment (Bearer "u2") "p1" (Some "Yes") (Some "c1") "c4" 60)
              db1 "c1" _ H1) as [(c' & Hc' & _ & _ & Hcontent & _)|(auth & Hr)].
  - exact (ex_intro _ _ (conj H1 (ex_intro _ c' (conj Hc' Hcontent)))).
  - discriminate Hr.
Defined.

(** ** Accounts *)

(** Where a user of the new store comes from. *)
Lemma user_origin (r : Request) (db : Db) (i : ObjectId) (u' : User.t) :
  users (handle r db).2 !! i = Some u' →
  (∃ u, users db !! i = Some u ∧ User.email u' = User.email u
        ∧ User.username u' = User.username u)
  ∨ (users db !! i = None
     ∧ ∃ hashed now,
         r = Register (User.username u') (User.email u') hashed i now
         ∧ user_exists (User.email u') (User.username u') db = false).
Proof.
  destruct r as
    [username email hashed _id now
    |auth title content category tags file _id now
    |auth j title content category tags
    |auth j
    |auth j
    |auth j content parentId _id now
    |auth j]; simpl.
  - unfold post_register. repeat case_match; simpl; eauto.
    destruct (decide (_id = i)) as [->|Hne].
    + rewrite lookup_insert_eq. intros [= <-]. simpl. right. eauto.
    + rewrite lookup_insert_ne by done. eauto.
  - unfold authenticateToken, post_poem. repeat case_match; simpl; eauto.
  - unfold authenticateToken, put_poem. repeat case_match; simpl; eauto.
  - unfold authenticateToken, delete_poem. repeat case_match; simpl; eauto.
  - unfold authenticateToken, post_like. repeat case_match; simpl; eauto.
  - unfold authenticateToken, post_comment. repeat case_match; simpl; eauto.
  - unfold authenticateToken, post_follow. repeat case_match; simpl; eauto.
    all: rewrite follow_alters_lookup; destruct (users db !! i) as [u0|]; [|done];
      simpl; intros [= <-]; left; exists u0; repeat case_decide; done.
Qed.

Lemma user_exists_false email username db i u :
  user_exists email username db = false →
  users db !! i = Some u →
  User.email u ≠ email ∧ User.username u ≠ username.
Proof.
  unfold user_exists. intros Hnone%bool_decide_eq_false Hu.
  split; intros Heq; apply Hnone; exists i, u; auto.
Qed.

Lemma handle_users_unique (r : Request) (db : Db) :
  users_unique db → users_unique (handle r db).2.
Proof.
  intros Huniq i j u' v' Hi Hj Hclash.
  destruct (user_origin r db i u' Hi) as [(u & Hu & Heu & Hnu)|(Hni & hi & ni & Hri & Hei)];
    destruct (user_origin r db j v' Hj) as [(v & Hv & Hev & Hnv)|(Hnj & hj & nj & Hrj & Hej)].
  - apply (Huniq i j u v Hu Hv). rewrite <- Heu, <- Hnu, <- Hev, <- Hnv. exact Hclash.
  - destruct (user_exists_false _ _ db i u Hej Hu). destruct Hclash; congruence.
  - destruct (user_exists_false _ _ db j v Hei Hv). destruct Hclash; congruence.
  - congruence.
Qed.

(** X8. In every store reached from the empty one, no two users share an
    email or a username. *)
Theorem reachable_users_unique (rs : list Request) :
  users_unique (run rs empty_db).
Proof.
  assert (H : ∀ db, users_unique db → users_unique (run rs db)).
  { induction rs as [|r rs IH]; intros db Hdb; [done|].
    apply (IH (handle r db).2), handle_users_unique, Hdb. }
  apply H. intros i j u v Hi. cbn in Hi. by rewrite lookup_empty in Hi.
Qed.

Lemma find_by_email_Some email db id u :
  find_by_email email db = Some (id, u) →
  users db !! id = Some u ∧ User.email u = email.
Proof.
  unfold find_by_email. intros Hhead%head_Some_elem_of.
  apply list_elem_of_filter in Hhead as [Hemail Hin].
  by apply elem_of_map_to_list in Hin.
Qed.

Lemma find_by_email_only email db id u :
  (∀ k v, users db !! k = Some v → User.email v = email → k = id) →
  users db !! id = Some u →
  User.email u = email →
  find_by_email email db = Some (id, u).
Proof.
  intros Honly Hu Hemail. unfold find_by_email.
  destruct (head _) as [[k v]|] eqn:Hhead.
  - apply find_by_email_Some in Hhead as [Hk Hv].
    assert (k = id) as -> by (by apply (Honly k v)).
    congruence.
  - apply head_None in Hhead.
    assert (Hin : (id, u) ∈ filter (λ ku, User.email ku.2 = email) (map_to_list (users db))).
    { apply list_elem_of_filter. split; [done|]. by apply elem_of_map_to_list. }
    rewrite Hhead in Hin. by apply not_elem_of_nil in Hin.
Qed.

(** X9. A login is answered 200 only for the email of a stored user and a
    password that [bcrypt.compare] accepts against the stored hash; the
    token and the profile sent are those of that user. *)
Theorem login_sound (compare : string → string → bool) (email password : string)
    (db : Db) (token : ObjectId) (user : UserJson) :
  post_login compare email password db = res 200 (AuthResult token user) →
  ∃ u, users db !! token = Some u
       ∧ User.email u = email
       ∧ compare password (User.password u) = true
       ∧ user = user_json token u.
Proof.
  unfold post_login. destruct (find_by_email email db) as [[id u]|] eqn:Hfind; [|done].
  apply find_by_email_Some in Hfind as [Hu Hemail].
  destruct (compare password (User.password u)) eqn:Hcmp; [|done].
  intros [= <- <-]. eauto.
Qed.

Lemma login_sound_witness :
  post_login sample_compare "alice@example.org" "A" db0
  = res 200 (AuthResult "u1" (user_json "u1" alice))
  ∧ ∃ u, users db0 !! "u1" = Some u ∧ User.email u = "alice@example.org".
Proof.
  assert (H : post_login sample_compare "alice@example.org" "A" db0
              = res 200 (AuthResult "u1" (user_json "u1" alice)))
    by (vm_compute; reflexivity).
  destruct (login_sound sample_compare _ _ db0 _ _ H) as (u & Hu & Hemail & _).
  exact (conj H (ex_intro _ u (conj Hu Hemail))).
Defined.

(** X10. In a store where emails are unique, a login with the email of a
    stored user is answered 200 with that user's token when
    [bcrypt.compare] accepts the password, and 400 when it refuses it. *)
Theorem login_complete (compare : string → string → bool) (email password : string)
    (db : Db) (id : ObjectId) (u : User.t) :
  users_unique db →
  users db !! id = Some u →
  User.email u = email →
  post_login compare email password db
  = if compare password (User.password u)
    then res 200 (AuthResult id (user_json id u))
    else res 400 (Error "Invalid credentials").
Proof.
  intros Huniq Hu Hemail. unfold post_login.
  rewrite (find_by_email_only email db id u); [done| |done..].
  intros k v Hk Hv. apply (Huniq k id v u Hk Hu). left. congruence.
Qed.

Lemma login_complete_witness :
  let db := run [Register "alice" "alice@example.org" "$2a$10$hashA" "u1" 1] empty_db in
  users_unique db ∧ users db !! "u1" = Some alice ∧ User.email alice = "alice@example.org"
  ∧ post_login sample_compare "alice@example.org" "B" db
    = res 400 (Error "Invalid credentials").
Proof.
  intros db.
  assert (H1 : users_unique db).
  { apply handle_users_unique. intros i j u v Hi. cbn in Hi. by rewrite lookup_empty in Hi. }
  assert (H2 : users db !! "u1" = Some alice) by (vm_compute; reflexivity).
  assert (H3 : User.email alice = "alice@example.org") by reflexivity.
  exact (conj H1 (conj H2 (conj H3
           (login_complete sample_compare "alice@example.org" "B" db "u1" alice H1 H2 H3)))).
Defined.

(** X11. After a registration answered 201, the token it sent opens
    [/api/auth/me] with the registered profile, and a login with the
    registered email is answered with a token of the same user (its
    payload is the identifier of the registered user) and with the same
    profile exactly when [bcrypt.compare] accepts the password against the
    stored hash. *)
Theorem register_then_login (compare : string → string → bool)
    (username email hashed password : string) (_id : ObjectId) (now : Z) (db : Db) :
  status (handle (Register username email hashed _id now) db).1 = 201 →
  (handle (Register username email hashed _id now) db).1
  = res 201 (AuthResult _id (mkUserJson _id username email "" "" now))
  ∧ get_me (Bearer _id) (handle (Register username email hashed _id now) db).2
    = info 200 (Me (mkUserJson _id username email "" "" now))
  ∧ post_login compare email password (handle (Register username email hashed _id now) db).2
    = if compare password hashed
      then res 200 (AuthResult _id (mkUserJson _id username email "" "" now))
      else res 400 (Error "Invalid credentials").
Proof.
  simpl. unfold post_register.
  destruct (user_exists email username db) eqn:Hexists; [done|].
  destruct (negb _); [done|].
  destruct (users db !! _id) eqn:Hfresh; [done|]. simpl. intros _.
  split; [done|]. split.
  - unfold get_me. simpl. by rewrite lookup_insert_eq.
  - unfold post_login.
    rewrite (find_by_email_only email _ _id (User.mk username email hashed "" "" [] [] now)).
    + done.
    + intros k v. simpl. destruct (decide (_id = k)) as [->|Hne]; [done|].
      rewrite lookup_insert_ne by done. intros Hk Hv.
      by destruct (user_exists_false _ _ db k v Hexists Hk).
    + simpl. apply lookup_insert_eq.
    + done.
Qed.

Lemma register_then_login_witness :
  status (handle (Register "carol" "carol@example.org" "$2a$10$hashC" "u3" 3) db0).1 = 201
  ∧ post_login sample_compare "carol@example.org" "C"
      (handle (Register "carol" "carol@example.org" "$2a$10$hashC" "u3" 3) db0).2
    = res 200 (AuthResult "u3" (mkUserJson "u3" "carol" "carol@example.org" "" "" 3)).
Proof.
  assert (H : status (handle (Register "carol" "carol@example.org" "$2a$10$hashC" "u3" 3)
                        db0).1 = 201) by (vm_compute; reflexivity).
  destruct (register_then_login sample_compare "carol" "carol@example.org"
              "$2a$10$hashC" "C" "u3" 3 db0 H) as (_ & _ & Hlogin).
  exact (conj H Hlogin).
Defined.

(** ** Likes, seen through the like-status route *)

(** X12. A like request on a stored poem answers the negation of the
    sender's like status before it, the like status of the sender after
    it is what the request answered, and the counter it answered is the
    stored one. *)
Theorem like_status_after_toggle (id userId : ObjectId) (db : Db) (p : Poem.t) :
  poems db !! id = Some p →
  ∃ liked n p',
    (handle (ToggleLike (Bearer userId) id) db).1 = res 200 (LikeResult liked n)
    ∧ get_like_status (Bearer userId) id db = info 200 (LikeStatus (negb liked))
    ∧ get_like_status (Bearer userId) id (handle (ToggleLike (Bearer userId) id) db).2
      = info 200 (LikeStatus liked)
    ∧ poems (handle (ToggleLike (Bearer userId) id) db).2 !! id = Some p'
    ∧ Poem.likes_count p' = n.
Proof.
  intros Hp. exists (negb (includes (Poem.likes p) userId)).
  exists (Poem.likes_count (like_poem userId p)), (like_poem userId p).
  unfold get_like_status. simpl. rewrite post_like_lookup, decide_True by done.
  unfold post_like. rewrite Hp. simpl. rewrite negb_involutive.
  repeat split. f_equal. f_equal.
  destruct p as [t c a cat tg img l n cc f ca]. unfold like_poem. simpl.
  destruct (includes l userId) eqn:Hin; simpl.
  - apply includes_false. rewrite elem_of_pull. tauto.
  - apply includes_true, elem_of_push. by right.
Qed.

Lemma like_status_after_toggle_witness :
  poems db0 !! "p1" = Some ode
  ∧ get_like_status (Bearer "u2") "p1" (handle (ToggleLike (Bearer "u2") "p1") db0).2
    = info 200 (LikeStatus true).
Proof.
  assert (H : poems db0 !! "p1" = Some ode) by (vm_compute; reflexivity).
  destruct (like_status_after_toggle "p1" "u2" db0 ode H)
    as (liked & n & p' & Hres & _ & Hstatus & _).
  refine (conj H _). rewrite Hstatus.
  assert (Hliked : (handle (ToggleLike (Bearer "u2") "p1") db0).1
                   = res 200 (LikeResult true 1)) by (vm_compute; reflexivity).
  rewrite Hliked in Hres. by injection Hres as <- _.
Defined.

Lemma includes_like_poem_other userId other p :
  userId ≠ other →
  includes (Poem.likes (like_poem userId p)) other = includes (Poem.likes p) other.
Proof.
  intros Hne. destruct p as [t c a cat tg img l n cc f ca]. unfold like_poem. simpl.
  destruct (includes l userId); simpl; unfold includes; apply bool_decide_ext.
  - rewrite elem_of_pull. split; [tauto|]. intros H. split; [done|congruence].
  - rewrite elem_of_push. split; [|tauto]. intros [H|H]; [done|congruence].
Qed.

(** X13. The like status of a user on a stored poem changes only under
    that user's own like request on the poem, or with the deletion of the
    poem: every other request leaves it as it was. *)
Theorem like_status_only_own_toggle (r : Request) (db : Db) (id other : ObjectId)
    (p : Poem.t) :
  poems db !! id = Some p →
  r ≠ ToggleLike (Bearer other) id →
  (∀ auth, r ≠ DeletePoem auth id) →
  get_like_status (Bearer other) id (handle r db).2 = get_like_status (Bearer other) id db.
Proof.
  intros Hp Hown Hdel.
  destruct (comments_count_monotone r db id p Hp Hdel) as (p' & Hp' & _).
  unfold get_like_status. simpl. rewrite Hp, Hp'. do 2 f_equal.
  destruct (poem_step r db id p p' Hp Hp')
    as [->|[(t & c & cat & tg & _ & ->)|[(u & -> & ->)|(u & c & pa & i & n & _ & ->)]]];
    try done.
  apply includes_like_poem_other. congruence.
Qed.

Lemma like_status_only_own_toggle_witness :
  poems db0 !! "p1" = Some ode
  ∧ ToggleLike (Bearer "u1") "p1" ≠ ToggleLike (Bearer "u2") "p1"
  ∧ get_like_status (Bearer "u2") "p1" (handle (ToggleLike (Bearer "u1") "p1") db0).2
    = get_like_status (Bearer "u2") "p1" db0.
Proof.
  assert (H1 : poems db0 !! "p1" = Some ode) by (vm_compute; reflexivity).
  assert (H2 : ToggleLike (Bearer "u1") "p1" ≠ ToggleLike (Bearer "u2") "p1")
    by discriminate.
  assert (H3 : ∀ auth, ToggleLike (Bearer "u1") "p1" ≠ DeletePoem auth "p1")
    by discriminate.
  exact (conj H1 (conj H2 (like_status_only_own_toggle _ db0 "p1" "u2" ode H1 H2 H3))).
Defined.

(** Where a poem of the new store comes from. *)
Lemma poem_origin (r : Request) (db : Db) (id : ObjectId) (p' : Poem.t) :
  poems (handle r db).2 !! id = Some p' →
  is_Some (poems db !! id)
  ∨ (Poem.likes p' = [] ∧ Poem.likes_count p' = 0 ∧ Poem.comments_count p' = 0
     ∧ Poem.is_featured p' = false
     ∧ ∃ auth title content category tags file now,
         r = CreatePoem auth title content category tags file id now).
Proof.
  destruct (poems db !! id) as [p|] eqn:Hp; [by eauto|]. right. revert H.
  destruct r as
    [username email hashed _id now
    |auth title content category tags file _id now
    |auth i title content category tags
    |auth i
    |auth i
    |auth i content parentId _id now
    |auth i]; simpl.
  - unfold post_register. repeat case_match; simpl; congruence.
  - unfold authenticateToken, post_poem. repeat case_match; simpl; try congruence.
    all: destruct (decide (_id = id)) as [->|Hne];
      [rewrite lookup_insert_eq; intros [= <-]; simpl; by eauto 15
      |rewrite lookup_insert_ne by done; congruence].
  - unfold authenticateToken, put_poem. repeat case_match; simpl; try congruence.
    destruct (decide (i = id)) as [->|Hne]; [congruence|].
    rewrite lookup_insert_ne by done; congruence.
  - unfold authenticateToken, delete_poem. repeat case_match; simpl; try congruence.
    intros Hl%lookup_delete_Some. destruct Hl. congruence.
  - destruct auth; simpl; try congruence. rewrite post_like_lookup.
    case_decide; [subst; by rewrite Hp|congruence].
  - unfold authenticateToken, post_comment. repeat case_match; simpl; try congruence.
    all: intros Hl%lookup_alter_Some; destruct Hl as [[_ (q & Hq & _)]|[_ Hq]]; congruence.
  - unfold authenticateToken, post_follow. repeat case_match; simpl; congruence.
Qed.

Lemma handle_likes_NoDup (r : Request) (db : Db) :
  map_Forall (λ _ p, NoDup (Poem.likes p)) (poems db) →
  map_Forall (λ _ p, NoDup (Poem.likes p)) (poems (handle r db).2).
Proof.
  intros Hdb id p' Hp'.
  destruct (poem_origin r db id p' Hp') as [[p Hp]|(Hlikes & _)].
  - pose proof (Hdb id p Hp) as Hnodup. simpl in Hnodup.
    destruct (poem_step r db id p p' Hp Hp')
      as [->|[(t & c & cat & tg & _ & ->)|[(u & _ & ->)|(u & c & pa & i & n & _ & ->)]]];
      try done.
    by apply like_poem_NoDup.
  - simpl. rewrite Hlikes. constructor.
Qed.

Lemma run_likes_NoDup (rs : list Request) (db : Db) :
  map_Forall (λ _ p, NoDup (Poem.likes p)) (poems db) →
  map_Forall (λ _ p, NoDup (Poem.likes p)) (poems (run rs db)).
Proof.
  revert db. induction rs as [|r rs IH]; intros db Hdb; [done|].
  apply (IH (handle r db).2), handle_likes_NoDup, Hdb.
Qed.

(** X14. In every store reached from the empty one, the likes of a poem
    hold no user twice and [likes_count] is the length of the array. *)
Theorem reachable_likes_length (rs : list Request) (id : ObjectId) (p : Poem.t) :
  poems (run rs empty_db) !! id = Some p →
  NoDup (Poem.likes p) ∧ Poem.likes_count p = Z.of_nat (length (Poem.likes p)).
Proof.
  intros Hp.
  assert (H1 : NoDup (Poem.likes p)).
  { apply (run_likes_NoDup rs empty_db (map_Forall_empty _) id p Hp). }
  split; [done|].
  rewrite <- (likes_set_length p H1).
  apply (run_likes_consistent rs empty_db (map_Forall_empty _) id p Hp).
Qed.

Lemma reachable_likes_length_witness :
  let rs := [CreatePoem (Bearer "u1") (Some "Ode") (Some "To autumn") (Some "nature")
               None None "p1" 10;
             ToggleLike (Bearer "u2") "p1"; ToggleLike (Bearer "u3") "p1";
             ToggleLike (Bearer "u2") "p1"] in
  ∃ p, poems (run rs empty_db) !! "p1" = Some p
       ∧ NoDup (Poem.likes p) ∧ Poem.likes_count p = Z.of_nat (length (Poem.likes p)).
Proof.
  intros rs.
  assert (H : poems (run rs empty_db) !! "p1"
              = Some (Poem.mk "Ode" "To autumn" "u1" "nature" [] "" ["u3"] 1 0 false 10))
    by (vm_compute; reflexivity).
  exact (ex_intro _ _ (conj H (reachable_likes_length rs "p1" _ H))).
Defined.

(** ** The follow graph *)

(** How one request changes the users: not at all, by a new user without
    follows, or by a follow between two stored users. *)
Lemma users_step (r : Request) (db : Db) :
  canonical_target r →
  users (handle r db).2 = users db
  ∨ (∃ _id u, users db !! _id = None ∧ User.following u = [] ∧ User.followers u = []
              ∧ users (handle r db).2 = <[_id := u]> (users db))
  ∨ (∃ t c tu cu, t ≠ c ∧ users db !! t = Some tu ∧ users db !! c = Some cu
                  ∧ r = ToggleFollow (Bearer c) t).
Proof.
  intros Hcanonical.
  destruct r as
    [username email hashed _id now
    |auth title content category tags file _id now
    |auth i title content category tags
    |auth i
    |auth i
    |auth i content parentId _id now
    |auth i]; simpl.
  - unfold post_register. repeat case_match; simpl; eauto.
    right. left. eexists _, _. repeat split; [done|..]; reflexivity.
  - unfold authenticateToken, post_poem. repeat case_match; simpl; eauto.
  - unfold authenticateToken, put_poem. repeat case_match; simpl; eauto.
  - unfold authenticateToken, delete_poem. repeat case_match; simpl; eauto.
  - unfold authenticateToken, post_like. repeat case_match; simpl; eauto.
  - unfold authenticateToken, post_comment. repeat case_match; simpl; eauto.
  - destruct auth as [| |c]; simpl; eauto.
    destruct (decide (i = c)) as [->|Hne].
    { left. unfold post_follow. by rewrite bool_decide_eq_true_2. }
    destruct (users db !! i) as [tu|] eqn:Ht.
    2: { left. rewrite post_follow_unchanged; [done|].
         right. left. unfold findById. simpl in Hcanonical. by rewrite Hcanonical, Ht. }
    destruct (users db !! c) as [cu|] eqn:Hc.
    2: { left. rewrite post_follow_unchanged; auto. }
    right. right. eauto 10.
Qed.

Lemma follow_graph_step (r : Request) (db : Db) :
  canonical_target r →
  (∀ a b, mutual_dual db a b) →
  (∀ a, ¬ follows db a a) →
  (∀ a ua, users db !! a = Some ua →
     NoDup (User.following ua) ∧ NoDup (User.followers ua)) →
  (∀ a b, mutual_dual (handle r db).2 a b)
  ∧ (∀ a, ¬ follows (handle r db).2 a a)
  ∧ (∀ a ua, users (handle r db).2 !! a = Some ua →
       NoDup (User.following ua) ∧ NoDup (User.followers ua)).
Proof.
  intros Hcanonical Hdual Hself Hnodup.
  destruct (users_step r db Hcanonical)
    as [Hsame|[(_id & u & Hfresh & Hfing & Hfers & Hnew)
              |(t & c & tu & cu & Hne & Ht & Hc & ->)]].
  - unfold mutual_dual, follows, has_follower in *. rewrite Hsame. done.
  - assert (Hfollows : ∀ a b, follows (handle r db).2 a b ↔ follows db a b).
    { intros a b. unfold follows. rewrite Hnew.
      destruct (decide (_id = a)) as [->|Ha].
      - rewrite lookup_insert_eq, Hfresh. split.
        + intros (ua & [= <-] & Hb). rewrite Hfing in Hb. by apply not_elem_of_nil in Hb.
        + by intros (ua & [=] & _).
      - by rewrite lookup_insert_ne. }
    assert (Hhas : ∀ b a, has_follower (handle r db).2 b a ↔ has_follower db b a).
    { intros b a. unfold has_follower. rewrite Hnew.
      destruct (decide (_id = b)) as [->|Hb].
      - rewrite lookup_insert_eq, Hfresh. split.
        + intros (ub & [= <-] & Ha). rewrite Hfers in Ha. by apply not_elem_of_nil in Ha.
        + by intros (ub & [=] & _).
      - by rewrite lookup_insert_ne. }
    split; [|split].
    + intros a b. unfold mutual_dual. rewrite Hfollows, Hhas. apply Hdual.
    + intros a. rewrite Hfollows. apply Hself.
    + intros a ua. rewrite Hnew. destruct (decide (_id = a)) as [->|Ha].
      * rewrite lookup_insert_eq. intros [= <-]. rewrite Hfing, Hfers.
        split; constructor.
      * rewrite lookup_insert_ne by done. apply Hnodup.
  - simpl. split; [|split].
    + intros a b. unfold mutual_dual.
      rewrite (follows_post_follow t c db tu cu Hne Ht Hc).
      rewrite (has_follower_post_follow t c db tu cu Hne Ht Hc).
      case_decide; [done|]. apply Hdual.
    + intros a. rewrite (follows_post_follow t c db tu cu Hne Ht Hc).
      rewrite decide_False by (intros [-> ->]; done). apply Hself.
    + intros a ua. rewrite (post_follow_found t c db tu cu Hne Ht Hc). simpl.
      destruct (Hnodup t tu Ht) as [Htu1 Htu2]. destruct (Hnodup c cu Hc) as [Hcu1 Hcu2].
      destruct (decide (t = a)) as [->|Hta].
      * rewrite lookup_insert_eq. intros [= <-]. simpl. split; [done|].
        destruct (includes (User.following cu) a) eqn:Hin.
        -- by apply NoDup_filter.
        -- apply includes_false in Hin. apply NoDup_app.
           split; [done|]. split; [|apply NoDup_singleton].
           intros x Hx ->%list_elem_of_singleton. apply Hin.
           assert (Hf : follows db c a).
           { apply Hdual. exists tu. done. }
           destruct Hf as (cu' & Hcu' & Hmem). congruence.
      * rewrite lookup_insert_ne by done.
        destruct (decide (c = a)) as [->|Hca].
        -- rewrite lookup_insert_eq. intros [= <-]. simpl. split; [|done].
           destruct (includes (User.following cu) t) eqn:Hin.
           ++ by apply NoDup_filter.
           ++ apply includes_false in Hin. apply NoDup_app.
              split; [done|]. split; [|apply NoDup_singleton].
              by intros x Hx ->%list_elem_of_singleton.
        -- rewrite lookup_insert_ne by done. apply Hnodup.
Qed.

Lemma run_follow_graph (rs : list Request) (db : Db) :
  Forall canonical_target rs →
  (∀ a b, mutual_dual db a b) → (∀ a, ¬ follows db a a) →
  (∀ a ua, users db !! a = Some ua →
     NoDup (User.following ua) ∧ NoDup (User.followers ua)) →
  follow_graph_ok (run rs db).
Proof.
  intros Hrs. revert db.
  induction Hrs as [|r rs Hr _ IH]; intros db Hdual Hself Hnodup.
  - intros a ua Ha. destruct (Hnodup a ua Ha) as [Hn1 Hn2].
    assert (Hfollows : ∀ b, b ∈ User.following ua → follows db a b)
      by (intros b Hb; by exists ua).
    assert (Hhas : ∀ b, b ∈ User.followers ua → has_follower db a b)
      by (intros b Hb; by exists ua).
    split; [done|]. split; [done|]. split; [|split; [|split]].
    + intros Hin. by apply (Hself a), Hfollows.
    + intros Hin. apply (Hself a), Hdual, Hhas, Hin.
    + intros b Hb. apply Hdual, Hfollows, Hb.
    + intros b Hb. apply Hdual, Hhas, Hb.
  - destruct (follow_graph_step r db Hr Hdual Hself Hnodup) as (H1 & H2 & H3).
    apply (IH (handle r db).2 H1 H2 H3).
Qed.

(** X15. In every store reached from the empty one by requests whose
    follow targets are written in the canonical rendering, the follow graph
    is well formed: the followers and the following of a user hold no user
    twice and never the user itself, they name stored users only, and a
    user is in the following of those, and only those, who have it among
    their followers. *)
Theorem reachable_follow_graph (rs : list Request) :
  Forall canonical_target rs →
  follow_graph_ok (run rs empty_db).
Proof.
  intros Hrs. apply (run_follow_graph rs empty_db Hrs).
  - intros a b. split; intros (u & Hu & _); cbn in Hu; by rewrite lookup_empty in Hu.
  - intros a (u & Hu & _). cbn in Hu. by rewrite lookup_empty in Hu.
  - intros a ua Hu. cbn in Hu. by rewrite lookup_empty in Hu.
Qed.

Lemma reachable_follow_graph_witness :
  let rs := [Register "erin" "erin@example.org" "$2a$10$hashE" "65f0a1b2c3d4e5f6a7b8c9d0" 1;
             Register "finn" "finn@example.org" "$2a$10$hashF" "65f0a1b2c3d4e5f6a7b8c9d1" 2;
             ToggleFollow (Bearer "65f0a1b2c3d4e5f6a7b8c9d0") "65f0a1b2c3d4e5f6a7b8c9d1"] in
  Forall canonical_target rs ∧ follow_graph_ok (run rs empty_db).
Proof.
  intros rs.
  assert (H : Forall canonical_target rs).
  { repeat constructor. }
  exact (conj H (reachable_follow_graph rs H)).
Defined.

Lemma length_pull (arr : list ObjectId) (v : ObjectId) :
  NoDup arr → v ∈ arr → S (length (pull arr v)) = length arr.
Proof.
  intros Hnodup Hv.
  rewrite <- (size_list_to_set (C:=gset string) arr Hnodup).
  rewrite <- (size_list_to_set (C:=gset string) (pull arr v)) by by apply NoDup_filter.
  by apply size_pull.
Qed.

(** X16. When [a] starts to follow [b], the profile of [b] shows one
    follower more and the profile of [a] one following more; the rest of
    both profiles is unchanged. *)
Theorem follow_raises_counts (db : Db) (a b : ObjectId) (ua ub : User.t) :
  a ≠ b →
  users db !! a = Some ua →
  users db !! b = Some ub →
  b ∉ User.following ua →
  get_user b (handle (ToggleFollow (Bearer a) b) db).2
  = info 200 (Profile (user_json b ub) (S (length (User.followers ub)))
                (length (User.following ub)))
  ∧ get_user a (handle (ToggleFollow (Bearer a) b) db).2
    = info 200 (Profile (user_json a ua) (length (User.followers ua))
                  (S (length (User.following ua)))).
Proof.
  intros Hab Ha Hb Hnot. assert (Hba : b ≠ a) by congruence.
  simpl. rewrite (post_follow_found b a db ub ua Hba Hb Ha).
  apply includes_false in Hnot. rewrite Hnot. unfold get_user. simpl.
  rewrite lookup_insert_eq, lookup_insert_ne, lookup_insert_eq by done.
  unfold push. simpl. rewrite !length_app. simpl.
  split; do 3 f_equal; lia.
Qed.

Lemma follow_raises_counts_witness :
  "u1" ≠ "u2" ∧ users db0 !! "u1" = Some alice ∧ users db0 !! "u2" = Some bob
  ∧ ("u2" ∉ User.following alice)
  ∧ get_user "u2" (handle (ToggleFollow (Bearer "u1") "u2") db0).2
    = info 200 (Profile (user_json "u2" bob) 1 0).
Proof.
  assert (H1 : "u1" ≠ "u2") by discriminate.
  assert (H2 : users db0 !! "u1" = Some alice) by (vm_compute; reflexivity).
  assert (H3 : users db0 !! "u2" = Some bob) by (vm_compute; reflexivity).
  assert (H4 : "u2" ∉ User.following alice) by apply not_elem_of_nil.
  exact (conj H1 (conj H2 (conj H3 (conj H4
           (proj1 (follow_raises_counts db0 "u1" "u2" alice bob H1 H2 H3 H4)))))).
Defined.

(** X17. In a store whose follow graph is well formed, when [a] stops
    following [b] the profile of [b] shows one follower less and the
    profile of [a] one following less. *)
Theorem unfollow_lowers_counts (db : Db) (a b : ObjectId) (ua ub : User.t) :
  follow_graph_ok db →
  users db !! a = Some ua →
  users db !! b = Some ub →
  b ∈ User.following ua →
  ∃ followers_count following_count,
    get_user b (handle (ToggleFollow (Bearer a) b) db).2
    = info 200 (Profile (user_json b ub) followers_count (length (User.following ub)))
    ∧ S followers_count = length (User.followers ub)
    ∧ get_user a (handle (ToggleFollow (Bearer a) b) db).2
      = info 200 (Profile (user_json a ua) (length (User.followers ua)) following_count)
    ∧ S following_count = length (User.following ua).
Proof.
  intros Hok Ha Hb Hin.
  destruct (Hok a ua Ha) as (Hnd1 & _ & Hself & _ & Hdual & _).
  destruct (Hok b ub Hb) as (_ & Hnd2 & _).
  assert (Hba : b ≠ a) by (intros ->; done).
  destruct (Hdual b Hin) as (ub' & Hub' & Hmem).
  assert (ub' = ub) as -> by congruence.
  exists (length (pull (User.followers ub) a)), (length (pull (User.following ua) b)).
  simpl. rewrite (post_follow_found b a db ub ua Hba Hb Ha).
  pose proof Hin as Hinc. apply includes_true in Hinc. rewrite Hinc.
  unfold get_user. simpl.
  rewrite lookup_insert_eq, lookup_insert_ne, lookup_insert_eq by done. simpl.
  split; [done|]. split; [by apply length_pull|]. split; [done|]. by apply length_pull.
Qed.

Lemma unfollow_lowers_counts_witness :
  let db := run [ToggleFollow (Bearer "u1") "u2"] db0 in
  ∃ ua ub, follow_graph_ok db ∧ users db !! "u1" = Some ua ∧ users db !! "u2" = Some ub
    ∧ "u2" ∈ User.following ua
    ∧ get_user "u2" (handle (ToggleFollow (Bearer "u1") "u2") db).2
      = info 200 (Profile (user_json "u2" ub) 0 0).
Proof.
  intros db.
  set (ua := set_following ["u2"] alice). set (ub := set_followers ["u1"] bob).
  assert (H2 : users db !! "u1" = Some ua) by (vm_compute; reflexivity).
  assert (H3 : users db !! "u2" = Some ub) by (vm_compute; reflexivity).
  assert (H4 : "u2" ∈ User.following ua) by (simpl; by left).
  assert (H1 : follow_graph_ok db).
  { intros a u Hu.
    assert (Hcases : (a = "u1" ∧ u = ua) ∨ (a = "u2" ∧ u = ub)).
    { change (users db) with (<["u2" := ub]> (<["u1" := ua]> (users db0))) in Hu.
      apply lookup_insert_Some in Hu as [[<- <-]|[Hne Hu]]; [by right|].
      apply lookup_insert_Some in Hu as [[<- <-]|[Hne' Hu]]; [by left|].
      change (users db0) with (<["u1" := alice]> (<["u2" := bob]> (∅ : gmap string User.t))) in Hu.
      apply lookup_insert_Some in Hu as [[<- _]|[_ Hu]]; [done|].
      apply lookup_insert_Some in Hu as [[<- _]|[_ Hu]]; [done|].
      by rewrite lookup_empty in Hu. }
    destruct Hcases as [[-> ->]|[-> ->]]; simpl.
    - repeat split; try apply NoDup_singleton; try constructor;
        try (by intros ?%not_elem_of_nil); try (by intros ?%list_elem_of_singleton).
      + intros b ->%list_elem_of_singleton. exists ub. split; [done|]. by left.
      + intros b Hb. by apply not_elem_of_nil in Hb.
    - repeat split; try apply NoDup_singleton; try constructor;
        try (by intros ?%not_elem_of_nil); try (by intros ?%list_elem_of_singleton).
      + intros b Hb. by apply not_elem_of_nil in Hb.
      + intros b ->%list_elem_of_singleton. exists ua. split; [done|]. by left. }
  destruct (unfollow_lowers_counts db "u1" "u2" ua ub H1 H2 H3 H4)
    as (n & m & Hb & Hn & _).
  exists ua, ub. refine (conj H1 (conj H2 (conj H3 (conj H4 _)))).
  rewrite Hb. simpl in Hn. by injection Hn as ->.
Defined.

(** X18. Two follow requests of [a] that name [b] by the identifier it is
    stored under, the first a follow and the second the unfollow, bring the
    profiles of both users back to what they were. *)
Theorem follow_unfollow_restores_profiles (db : Db) (a b : ObjectId) (ua ub : User.t) :
  a ≠ b →
  users db !! a = Some ua →
  users db !! b = Some ub →
  b ∉ User.following ua →
  a ∉ User.followers ub →
  get_user a (run [ToggleFollow (Bearer a) b; ToggleFollow (Bearer a) b] db) = get_user a db
  ∧ get_user b (run [ToggleFollow (Bearer a) b; ToggleFollow (Bearer a) b] db)
    = get_user b db.
Proof.
  intros Hab Ha Hb Hnot Hnot'. assert (Hba : b ≠ a) by congruence.
  unfold run. simpl. rewrite (post_follow_found b a db ub ua Hba Hb Ha).
  pose proof Hnot as Hinc. apply includes_false in Hinc. rewrite Hinc. simpl.
  set (ua1 := set_following (push (User.following ua) b) ua).
  set (ub1 := set_followers (push (User.followers ub) a) ub).
  set (db1 := mkDb (<[b := ub1]> (<[a := ua1]> (users db))) (poems db) (comments db)).
  assert (Hb1 : users db1 !! b = Some ub1) by apply lookup_insert_eq.
  assert (Ha1 : users db1 !! a = Some ua1).
  { simpl. rewrite lookup_insert_ne by done. apply lookup_insert_eq. }
  rewrite (post_follow_found b a db1 ub1 ua1 Hba Hb1 Ha1).
  assert (Hin1 : includes (User.following ua1) b = true).
  { apply includes_true. simpl. apply elem_of_push. by right. }
  rewrite Hin1. unfold get_user. cbn [snd users].
  rewrite lookup_insert_eq, lookup_insert_ne, lookup_insert_eq by done.
  rewrite Ha, Hb. subst ua1 ub1. cbn [User.following User.followers set_following set_followers].
  rewrite !pull_push_fresh by done. done.
Qed.

Lemma follow_unfollow_restores_profiles_witness :
  "u1" ≠ "u2" ∧ users db0 !! "u1" = Some alice ∧ users db0 !! "u2" = Some bob
  ∧ ("u2" ∉ User.following alice) ∧ ("u1" ∉ User.followers bob)
  ∧ get_user "u2" (run [ToggleFollow (Bearer "u1") "u2"; ToggleFollow (Bearer "u1") "u2"] db0)
    = get_user "u2" db0.
Proof.
  assert (H1 : "u1" ≠ "u2") by discriminate.
  assert (H2 : users db0 !! "u1" = Some alice) by (vm_compute; reflexivity).
  assert (H3 : users db0 !! "u2" = Some bob) by (vm_compute; reflexivity).
  assert (H4 : "u2" ∉ User.following alice) by apply not_elem_of_nil.
  assert (H5 : "u1" ∉ User.followers bob) by apply not_elem_of_nil.
  exact (conj H1 (conj H2 (conj H3 (conj H4 (conj H5
    (proj2 (follow_unfollow_restores_profiles db0 "u1" "u2" alice bob H1 H2 H3 H4 H5))))))).
Defined.

(** ** Follow requests under another rendering of the identifier *)

Lemma post_follow_other_rendering_lookup (id currentUserId : ObjectId) (db : Db)
    (targetUser currentUser : User.t) :
  castObjectId id ≠ id →
  (∀ key, is_Some (users db !! key) → castObjectId key = key) →
  (∀ x, x ∈ User.following currentUser → castObjectId x = x) →
  users db !! castObjectId id = Some targetUser →
  users db !! currentUserId = Some currentUser →
  (post_follow id currentUserId db).1 = res 200 (FollowResult true)
  ∧ (∀ key, is_Some (users (post_follow id currentUserId db).2 !! key) →
       castObjectId key = key)
  ∧ (∃ u, users (post_follow id currentUserId db).2 !! currentUserId = Some u
          ∧ User.following u = User.following currentUser ++ [castObjectId id])
  ∧ (∃ u, users (post_follow id currentUserId db).2 !! castObjectId id = Some u
          ∧ User.followers u = User.followers targetUser ++ [currentUserId]).
Proof.
  intros Hid Hkeys Hfollowing Htarget Hcurrent.
  rewrite (post_follow_other_rendering id currentUserId db targetUser currentUser)
    by done.
  cbn [fst snd users]. split; [done|]. split; [|split].
  - intros key. rewrite follow_alters_lookup, fmap_is_Some. apply Hkeys.
  - rewrite follow_alters_lookup, Hcurrent. eexists. split; [reflexivity|].
    rewrite (decide_True (P := currentUserId = currentUserId)) by done.
    by case_decide.
  - rewrite follow_alters_lookup, Htarget. eexists. split; [reflexivity|].
    rewrite (decide_True (P := castObjectId id = castObjectId id)) by done.
    by case_decide.
Qed.

(** X28. A follow request that names a stored user by another rendering
    of its identifier than the stored one (hexadecimal letters in upper
    case) is answered [following: true] every time it is sent: after two
    such requests the target is twice more in the sender's following and
    the sender twice more among the target's followers.  The sender may be
    the target. *)
Theorem follow_other_rendering_twice (db : Db) (id currentUserId : ObjectId)
    (targetUser currentUser : User.t) :
  castObjectId id ≠ id →
  (∀ key, is_Some (users db !! key) → castObjectId key = key) →
  (∀ x, x ∈ User.following currentUser → castObjectId x = x) →
  users db !! castObjectId id = Some targetUser →
  users db !! currentUserId = Some currentUser →
  (handle (ToggleFollow (Bearer currentUserId) id) db).1 = res 200 (FollowResult true)
  ∧ (handle (ToggleFollow (Bearer currentUserId) id)
       (run [ToggleFollow (Bearer currentUserId) id] db)).1
    = res 200 (FollowResult true)
  ∧ (∃ u, users (run [ToggleFollow (Bearer currentUserId) id;
                      ToggleFollow (Bearer currentUserId) id] db) !! currentUserId
          = Some u
          ∧ User.following u
            = User.following currentUser ++ [castObjectId id; castObjectId id])
  ∧ (∃ u, users (run [ToggleFollow (Bearer currentUserId) id;
                      ToggleFollow (Bearer currentUserId) id] db) !! castObjectId id
          = Some u
          ∧ User.followers u
            = User.followers targetUser ++ [currentUserId; currentUserId]).
Proof.
  intros Hid Hkeys Hfollowing Htarget Hcurrent. unfold run. simpl.
  destruct (post_follow_other_rendering_lookup id currentUserId db targetUser currentUser
              Hid Hkeys Hfollowing Htarget Hcurrent)
    as (Hres & Hkeys1 & (cu1 & Hcurrent1 & Hfollowing1) & (tu1 & Htarget1 & Hfollowers1)).
  assert (Hcanonical1 : ∀ x, x ∈ User.following cu1 → castObjectId x = x).
  { intros x. rewrite Hfollowing1, elem_of_app, list_elem_of_singleton.
    intros [Hx| ->]; [by apply Hfollowing|apply castObjectId_idemp]. }
  destruct (post_follow_other_rendering_lookup id currentUserId
              (post_follow id currentUserId db).2 tu1 cu1
              Hid Hkeys1 Hcanonical1 Htarget1 Hcurrent1)
    as (Hres2 & _ & (cu2 & Hcurrent2 & Hfollowing2) & (tu2 & Htarget2 & Hfollowers2)).
  split; [done|]. split; [done|]. split.
  - exists cu2. split; [done|]. by rewrite Hfollowing2, Hfollowing1, <- app_assoc.
  - exists tu2. split; [done|]. by rewrite Hfollowers2, Hfollowers1, <- app_assoc.
Qed.

Lemma follow_other_rendering_twice_witness :
  let id := "65F0A1B2C3D4E5F6A7B8C9D1" in
  let currentUserId := "65f0a1b2c3d4e5f6a7b8c9d0" in
  castObjectId id ≠ id
  ∧ users db_hex !! castObjectId id = Some finn
  ∧ users db_hex !! currentUserId = Some erin
  ∧ ∃ u, users (run [ToggleFollow (Bearer currentUserId) id;
                     ToggleFollow (Bearer currentUserId) id] db_hex) !! currentUserId
         = Some u
         ∧ User.following u = [castObjectId id; castObjectId id].
Proof.
  intros id currentUserId.
  assert (H1 : castObjectId id ≠ id) by (vm_compute; discriminate).
  assert (H2 : ∀ key, is_Some (users db_hex !! key) → castObjectId key = key).
  { intros key [u Hu]. unfold db_hex in Hu. cbn [users] in Hu.
    apply lookup_insert_Some in Hu as [[<- _]|[_ Hu]]; [vm_compute; reflexivity|].
    apply lookup_singleton_Some in Hu as [<- _]. vm_compute; reflexivity. }
  assert (H3 : ∀ x, x ∈ User.following erin → castObjectId x = x).
  { intros x Hx. by apply not_elem_of_nil in Hx. }
  assert (H4 : users db_hex !! castObjectId id = Some finn) by (vm_compute; reflexivity).
  assert (H5 : users db_hex !! currentUserId = Some erin) by (vm_compute; reflexivity).
  exact (conj H1 (conj H4 (conj H5
    (proj1 (proj2 (proj2 (follow_other_rendering_twice db_hex id currentUserId finn erin
                            H1 H2 H3 H4 H5))))))).
Defined.

(** ** The short listings *)

Lemma filter_True {A} (l : list A) : filter (λ _, True) l = l.
Proof. induction l as [|x l IH]; [done|]. rewrite filter_cons_True by done. by f_equal. Qed.

Section top.
Context {A : Type} (m : gmap string A).
Context (P : string * A → Prop) `{∀ x, Decision (P x)}.
Context (R : relation (string * A)) `{!RelDecision R, !Transitive R, !Total R}.
Context (k : nat).

Let top := take k (merge_sort R (filter P (map_to_list m))).

Lemma top_elem_of key x : (key, x) ∈ top → m !! key = Some x ∧ P (key, x).
Proof.
  subst top. intros Hin. apply (find_sort_elem_of m P R).
  eapply elem_of_sublist; [exact Hin|apply sublist_take].
Qed.

Lemma top_NoDup : NoDup top.*1.
Proof.
  subst top. eapply sublist_NoDup; [apply (find_sort_NoDup m P R)|].
  apply fmap_sublist, sublist_take.
Qed.

Lemma top_sorted : StronglySorted R top.
Proof.
  subst top. eapply StronglySorted_app_1_l. rewrite take_drop.
  apply find_sort_sorted; apply _.
Qed.

Lemma top_best key x y :
  m !! key = Some x → P (key, x) → key ∉ top.*1 → y ∈ top → R y (key, x).
Proof.
  subst top. intros Hkey HP Hout Hy.
  assert (Hin : (key, x) ∈ merge_sort R (filter P (map_to_list m))).
  { by apply (find_sort_elem_of m P R). }
  rewrite <- (take_drop k) in Hin. apply elem_of_app in Hin as [Hin|Hin].
  - destruct Hout. by apply (list_elem_of_fmap_2 fst) in Hin.
  - eapply StronglySorted_app_1_elem_of; [|exact Hy|exact Hin].
    rewrite take_drop. apply find_sort_sorted; apply _.
Qed.

Lemma top_length : length top = min k (length (filter P (map_to_list m))).
Proof. subst top. by rewrite length_take, merge_sort_Permutation. Qed.
End top.

(** X19. The trending listing holds the six most liked poems of the store
    (all of them when there are fewer), each once, in descending order of
    [likes_count]: no poem left out has more likes than a listed one. *)
Theorem get_trending_top (db : Db) :
  ∃ l : list PoemJson,
    get_trending db = res 200 (Poems l)
    ∧ length l = min 6 (size (poems db))
    ∧ NoDup (poem_id <$> l)
    ∧ (∀ v, v ∈ l → poems db !! poem_id v = Some (poem_doc v)
                    ∧ poem_author v = populate_author false db (Poem.author (poem_doc v)))
    ∧ StronglySorted
        (λ v w, Poem.likes_count (poem_doc w) ≤ Poem.likes_count (poem_doc v)) l
    ∧ (∀ id p v, poems db !! id = Some p → id ∉ poem_id <$> l → v ∈ l →
         Poem.likes_count p ≤ Poem.likes_count (poem_doc v)).
Proof.
  eexists. split; [reflexivity|].
  unfold mongo_limit. rewrite bool_decide_eq_false_2 by done.
  change (Z.abs_nat 6) with 6%nat.
  rewrite <- (filter_True (map_to_list (poems db))).
  set (top := take 6 (merge_sort (sort_le likes_count_desc)
                        (filter (λ _, True) (map_to_list (poems db))))).
  assert (Hkeys : poem_id <$> (poem_json false db <$> top) = top.*1).
  { by rewrite <- list_fmap_compose. }
  rewrite Hkeys. split; [|split; [|split; [|split]]].
  - rewrite length_fmap. subst top. rewrite top_length, filter_True.
    by rewrite length_map_to_list.
  - apply top_NoDup.
  - intros v ([id p] & -> & Hin)%list_elem_of_fmap.
    apply top_elem_of in Hin as [Hin _]. done.
  - apply (StronglySorted_fmap _ (sort_le likes_count_desc)); [auto|].
    apply top_sorted; apply _.
  - intros id p v Hp Hout ([id' p'] & -> & Hin)%list_elem_of_fmap.
    apply (top_best (poems db) (λ _, True) (sort_le likes_count_desc) 6 id p (id', p'));
      done.
Qed.

(** X20. The featured listing holds the three most recent featured poems
    (all of them when there are fewer), each once, newest first: every
    entry is a stored featured poem, and when a featured poem is left out
    the listing holds three poems, none of them older than it. *)
Theorem get_featured_top (db : Db) :
  ∃ l : list PoemJson,
    get_featured db = res 200 (Poems l)
    ∧ (length l ≤ 3)%nat
    ∧ NoDup (poem_id <$> l)
    ∧ (∀ v, v ∈ l → poems db !! poem_id v = Some (poem_doc v)
                    ∧ Poem.is_featured (poem_doc v) = true)
    ∧ StronglySorted
        (λ v w, Poem.createdAt (poem_doc w) ≤ Poem.createdAt (poem_doc v)) l
    ∧ (∀ id p, poems db !! id = Some p → Poem.is_featured p = true →
         id ∉ poem_id <$> l →
         length l = 3%nat
         ∧ ∀ v, v ∈ l → Poem.createdAt p ≤ Poem.createdAt (poem_doc v)).
Proof.
  eexists. split; [reflexivity|].
  unfold mongo_limit. rewrite bool_decide_eq_false_2 by done.
  change (Z.abs_nat 3) with 3%nat.
  set (featured := λ kp : ObjectId * Poem.t, Poem.is_featured kp.2 = true).
  set (top := take 3 (merge_sort (sort_le createdAt_desc)
                        (filter featured (map_to_list (poems db))))).
  assert (Hkeys : poem_id <$> (poem_json false db <$> top) = top.*1).
  { by rewrite <- list_fmap_compose. }
  rewrite Hkeys. split; [|split; [|split; [|split]]].
  - rewrite length_fmap. subst top. rewrite length_take. lia.
  - apply top_NoDup.
  - intros v ([id p] & -> & Hin)%list_elem_of_fmap.
    by apply top_elem_of in Hin.
  - apply (StronglySorted_fmap _ (sort_le createdAt_desc)); [auto|].
    apply top_sorted; apply _.
  - intros id p Hp Hfeat Hout. split; [|intros v Hv].
    + rewrite length_fmap. subst top. rewrite length_take.
      destruct (decide (3 ≤ length (merge_sort (sort_le createdAt_desc)
                                      (filter featured (map_to_list (poems db))))))%nat
        as [Hlen|Hlen]; [lia|].
      destruct Hout. rewrite take_ge by lia.
      apply (list_elem_of_fmap_2 fst _ (id, p)).
      by apply (find_sort_elem_of (poems db) featured).
    + apply list_elem_of_fmap in Hv as ([id' p'] & -> & Hin).
      apply (top_best (poems db) featured (sort_le createdAt_desc) 3 id p (id', p'));
        done.
Qed.

Lemma filter_all {A} (P : A → Prop) `{∀ x, Decision (P x)} (l : list A) :
  (∀ x, P x) → filter P l = l.
Proof.
  intros HP. induction l as [|x l IH]; [done|].
  rewrite filter_cons_True by done. by f_equal.
Qed.

(** X21. The trending listing is the first page of six of the poem listing
    sorted by popularity, whatever the regular-expression engine. *)
Theorem trending_is_popular_page (RegExp_i : string → option (string → bool)) (db : Db) :
  get_poems RegExp_i (mkQuery None None (Some "popular") (Some 6) None) db
  = get_trending db.
Proof.
  unfold get_poems, get_trending, poems_filter, mongo_skip. simpl.
  rewrite filter_all by done. reflexivity.
Qed.

Lemma foldl_sum {A} (f : A → Z) (l : list A) (a : Z) :
  foldl (λ sum x, sum + f x) a l = a + foldr (λ x sum, f x + sum) 0 l.
Proof.
  revert a. induction l as [|x l IH]; intros a; simpl; [lia|]. rewrite IH. lia.
Qed.

Lemma foldr_sum_Permutation {A} (f : A → Z) (l1 l2 : list A) :
  l1 ≡ₚ l2 → foldr (λ x sum, f x + sum) 0 l1 = foldr (λ x sum, f x + sum) 0 l2.
Proof. induction 1; simpl; lia. Qed.

(** X22. The statistics of a user agree with the listing of that user's
    poems: the listing holds, newest first, the stored poems of that
    author, and the statistics are the number of poems listed and the
    sums of their [likes_count] and of their [comments_count]. *)
Theorem user_stats_match_poems (id : ObjectId) (db : Db) :
  ∃ l : list PoemJson,
    get_user_poems id db = res 200 (Poems l)
    ∧ NoDup (poem_id <$> l)
    ∧ (∀ v, v ∈ l ↔ poems db !! poem_id v = Some (poem_doc v)
                    ∧ Poem.author (poem_doc v) = id
                    ∧ poem_author v = populate_author false db id)
    ∧ StronglySorted
        (λ v w, Poem.createdAt (poem_doc w) ≤ Poem.createdAt (poem_doc v)) l
    ∧ get_user_stats id db
      = info 200 (Stats (length l)
                    (foldr (λ v sum, Poem.likes_count (poem_doc v) + sum) 0 l)
                    (foldr (λ v sum, Poem.comments_count (poem_doc v) + sum) 0 l)).
Proof.
  eexists. split; [reflexivity|].
  set (by_author := λ kp : ObjectId * Poem.t, Poem.author kp.2 = id).
  set (sorted := merge_sort (sort_le createdAt_desc) (poems_of id db)).
  assert (Hperm : sorted ≡ₚ poems_of id db) by apply merge_sort_Permutation.
  split; [|split; [|split]].
  - rewrite <- list_fmap_compose.
    apply (find_sort_NoDup (poems db) by_author (sort_le createdAt_desc)).
  - intros v. rewrite list_elem_of_fmap. split.
    + intros ([k p] & -> & Hkp).
      apply (find_sort_elem_of (poems db) by_author) in Hkp as [Hk Hp].
      simpl. unfold by_author in Hp. simpl in Hp. by rewrite Hp.
    + intros (Hdoc & Hauthor & Hpop). exists (poem_id v, poem_doc v). split.
      * destruct v as [k p a]. unfold poem_json. simpl in *. by subst.
      * by apply (find_sort_elem_of (poems db) by_author).
  - apply (StronglySorted_fmap _ (sort_le createdAt_desc)); [auto|].
    apply (find_sort_sorted (poems db) by_author); apply _.
  - unfold get_user_stats. rewrite !foldl_sum, !Z.add_0_l, length_fmap, !foldr_fmap.
    fold sorted. do 2 f_equal.
    + symmetry. by apply Permutation_length.
    + symmetry. by apply foldr_sum_Permutation.
    + symmetry. by apply foldr_sum_Permutation.
Qed.

(** ** Poems, from creation to deletion *)

(** X23. A poem created with a title, a content, a category and a fresh
    identifier is then served by its identifier with those fields, the
    sender as author, no likes, no comments and not featured; once its
    author deletes it, it is served no more (404) and the poems of the
    store are those from before the creation. *)
Theorem create_get_delete (db : Db) (userId _id : ObjectId)
    (title content category : string) (tags file : option string) (now : Z) :
  title ≠ "" → content ≠ "" → category ≠ "" →
  poems db !! _id = None →
  let created :=
    (handle (CreatePoem (Bearer userId) (Some title) (Some content) (Some category)
               tags file _id now) db).2 in
  let deleted := (handle (DeletePoem (Bearer userId) _id) created).2 in
  (∃ p, get_poem _id created
        = res 200 (OnePoem (mkPoemJson _id p (populate_author true db userId)))
        ∧ Poem.title p = title ∧ Poem.content p = content ∧ Poem.category p = category
        ∧ Poem.author p = userId ∧ Poem.likes p = [] ∧ Poem.likes_count p = 0
        ∧ Poem.comments_count p = 0 ∧ Poem.is_featured p = false
        ∧ Poem.createdAt p = now)
  ∧ get_poem _id deleted = res 404 (Error "Poem not found")
  ∧ poems deleted = poems db.
Proof.
  intros Ht Hc Hcat Hfresh. simpl. unfold post_poem. simpl.
  rewrite !bool_decide_eq_false_2 by done. simpl. rewrite Hfresh. simpl.
  unfold delete_poem, get_poem. simpl. rewrite lookup_insert_eq. simpl.
  rewrite bool_decide_eq_false_2 by (intros H; by apply H). simpl.
  rewrite lookup_delete_eq, delete_insert_eq, delete_id by done.
  split; [|done]. eexists. split; [reflexivity|]. simpl. done.
Qed.

Lemma create_get_delete_witness :
  "Elegy" ≠ "" ∧ "In a churchyard" ≠ "" ∧ "nature" ≠ "" ∧ poems db0 !! "p3" = None
  ∧ get_poem "p3"
      (handle (DeletePoem (Bearer "u1") "p3")
         (handle (CreatePoem (Bearer "u1") (Some "Elegy") (Some "In a churchyard")
                    (Some "nature") (Some "dusk, bell") None "p3" 70) db0).2).2
    = res 404 (Error "Poem not found").
Proof.
  assert (H1 : "Elegy" ≠ "") by discriminate.
  assert (H2 : "In a churchyard" ≠ "") by discriminate.
  assert (H3 : "nature" ≠ "") by discriminate.
  assert (H4 : poems db0 !! "p3" = None) by (vm_compute; reflexivity).
  destruct (create_get_delete db0 "u1" "p3" "Elegy" "In a churchyard" "nature"
              (Some "dusk, bell") None 70 H1 H2 H3 H4) as (_ & Hgone & _).
  exact (conj H1 (conj H2 (conj H3 (conj H4 Hgone)))).
Defined.

Lemma or_else_idem (v : option string) (d : string) : or_else v (or_else v d) = or_else v d.
Proof. destruct v as [s|]; simpl; [|done]. by case_bool_decide. Qed.

Lemma edit_poem_idem title content category tags p :
  edit_poem title content category tags (edit_poem title content category tags p)
  = edit_poem title content category tags p.
Proof.
  unfold edit_poem. simpl. rewrite !or_else_idem.
  f_equal. destruct tags as [t|]; [|done]. by destruct (truthy (Some t)).
Qed.

(** X24. Sending the same edit request a second time changes nothing: the
    answer and the store are those of the first time. *)
Theorem edit_twice (auth : Authorization) (id : ObjectId)
    (title content category tags : option string) (db : Db) :
  handle (UpdatePoem auth id title content category tags)
    (handle (UpdatePoem auth id title content category tags) db).2
  = handle (UpdatePoem auth id title content category tags) db.
Proof.
  destruct auth as [| |userId]; simpl; [done..|].
  unfold put_poem. destruct (poems db !! id) as [p|] eqn:Hp; simpl.
  - case_bool_decide as Hauthor; simpl.
    + rewrite Hp. by rewrite bool_decide_eq_true_2.
    + rewrite lookup_insert_eq. simpl.
      rewrite bool_decide_eq_false_2 by (intros H; by apply H).
      rewrite edit_poem_idem, insert_insert_eq. reflexivity.
  - by rewrite Hp.
Qed.

(** ** Comments, seen through the comments route *)

(** X25. After a reply to a stored top-level comment of the poem, the
    comments listing of the poem shows the reply nested under its parent,
    last among the parent's replies, and not as an entry of its own. *)
Theorem reply_is_nested (db : Db) (id userId _id parent : ObjectId) (content : string)
    (now : Z) (pc : Comment.t) :
  content ≠ "" →
  comments db !! _id = None →
  parent ≠ "" →
  comments db !! parent = Some pc →
  Comment.poem pc = id →
  Comment.parent pc = None →
  let db' := (handle (CreateComment (Bearer userId) id (Some content) (Some parent)
                        _id now) db).2 in
  ∃ l v earlier,
    get_comments id db' = res 200 (Comments l)
    ∧ v ∈ l
    ∧ comment_id v = parent
    ∧ comment_replies v
      = earlier ++ [mkReplyJson _id (Comment.mk id userId content (Some parent) [] now)
                      (populate_author true db userId)]
    ∧ _id ∉ comment_id <$> l.
Proof.
  intros Hcontent Hfresh Hparent Hpc Hpoem Htop db'.
  assert (Hne : parent ≠ _id) by congruence.
  set (newc := Comment.mk id userId content (Some parent) [] now).
  assert (Hdb' : db' = mkDb (users db) (alter inc_comments_count id (poems db))
                         (alter (push_reply _id) parent (<[_id := newc]> (comments db)))).
  { subst db'. simpl. unfold post_comment. simpl.
    rewrite !bool_decide_eq_false_2 by done. simpl. by rewrite Hfresh. }
  assert (Hp' : comments db' !! parent = Some (push_reply _id pc)).
  { rewrite Hdb'. simpl. by rewrite lookup_alter_eq, lookup_insert_ne, Hpc. }
  assert (Hn' : comments db' !! _id = Some newc).
  { rewrite Hdb'. simpl. rewrite lookup_alter_ne by done. apply lookup_insert_eq. }
  eexists _, (populate_comment db' (parent, push_reply _id pc)), _.
  split; [reflexivity|]. split; [|split; [reflexivity|split]].
  - apply list_elem_of_fmap_2.
    apply (find_sort_elem_of (comments db') (top_level id) created_asc).
    split; [done|]. split; simpl; done.
  - unfold populate_comment. simpl. unfold push. rewrite omap_app. f_equal.
    simpl. unfold populate_reply at 1. rewrite Hn'. simpl.
    unfold populate_author. rewrite Hdb'. reflexivity.
  - rewrite <- list_fmap_compose. intros Hin.
    apply list_elem_of_fmap in Hin as ([k c] & Hk & Hin). simpl in Hk. subst k.
    apply (find_sort_elem_of (comments db') (top_level id) created_asc) in Hin
      as [Hc [_ Hnone]].
    rewrite Hn' in Hc. injection Hc as <-. done.
Qed.

Lemma reply_is_nested_witness :
  ∃ l v earlier,
    get_comments "p1" (handle (CreateComment (Bearer "u2") "p1" (Some "Yes") (Some "c1")
                                 "c4" 60) db1).2 = res 200 (Comments l)
    ∧ v ∈ l ∧ comment_id v = "c1"
    ∧ comment_replies v
      = earlier ++ [mkReplyJson "c4" (Comment.mk "p1" "u2" "Yes" (Some "c1") [] 60)
                      (populate_author true db1 "u2")].
Proof.
  assert (H1 : "Yes" ≠ "") by discriminate.
  assert (H2 : comments db1 !! "c4" = None) by (vm_compute; reflexivity).
  assert (H3 : "c1" ≠ "") by discriminate.
  assert (H4 : comments db1 !! "c1" = Some (Comment.mk "p1" "u2" "Lovely" None ["c2"] 30))
    by (vm_compute; reflexivity).
  destruct (reply_is_nested db1 "p1" "u2" "c4" "c1" "Yes" 60 _ H1 H2 H3 H4 eq_refl eq_refl)
    as (l & v & earlier & Hl & Hv & Hid & Hreplies & _).
  exact (ex_intro _ l (ex_intro _ v (ex_intro _ earlier
           (conj Hl (conj Hv (conj Hid Hreplies)))))).
Defined.

(** X26. The handler does not look the poem up: a comment sent for an
    identifier under which no poem is stored is answered 201 and stored
    with that identifier as its poem, and the poems are left as they
    were. *)
Theorem comment_on_missing_poem (db : Db) (id userId _id : ObjectId) (content : string)
    (parentId : option string) (now : Z) :
  content ≠ "" →
  comments db !! _id = None →
  poems db !! id = None →
  status (handle (CreateComment (Bearer userId) id (Some content) parentId _id now) db).1
  = 201
  ∧ poems (handle (CreateComment (Bearer userId) id (Some content) parentId _id now) db).2
    = poems db
  ∧ ∃ c, comments (handle (CreateComment (Bearer userId) id (Some content) parentId
                             _id now) db).2 !! _id = Some c
         ∧ Comment.poem c = id ∧ Comment.content c = content.
Proof.
  intros Hcontent Hfresh Hpoem. simpl. unfold post_comment. simpl.
  rewrite bool_decide_eq_false_2 by done. simpl. rewrite Hfresh. simpl.
  split; [done|]. split.
  - apply map_eq. intros j. rewrite lookup_alter.
    case_decide; [subst; by rewrite Hpoem|done].
  - destruct parentId as [parent|]; simpl.
    + case_bool_decide; simpl.
      * rewrite lookup_insert_eq. eauto.
      * rewrite lookup_alter. case_decide; subst; rewrite lookup_insert_eq; simpl; eauto.
    + rewrite lookup_insert_eq. eauto.
Qed.

Lemma comment_on_missing_poem_witness :
  "Hello" ≠ "" ∧ comments db0 !! "c1" = None ∧ poems db0 !! "p9" = None
  ∧ status (handle (CreateComment (Bearer "u1") "p9" (Some "Hello") None "c1" 60) db0).1
    = 201.
Proof.
  assert (H1 : "Hello" ≠ "") by discriminate.
  assert (H2 : comments db0 !! "c1" = None) by (vm_compute; reflexivity).
  assert (H3 : poems db0 !! "p9" = None) by (vm_compute; reflexivity).
  exact (conj H1 (conj H2 (conj H3
           (proj1 (comment_on_missing_poem db0 "p9" "u1" "c1" "Hello" None 60 H1 H2 H3))))).
Defined.

(** ** Tags *)

Lemma list_ascii_rev_app (s1 s2 : string) :
  list_ascii_of_string (String.rev_app s1 s2)
  = reverse (list_ascii_of_string s1) ++ list_ascii_of_string s2.
Proof.
  revert s2. induction s1 as [|a s1 IH]; intros s2; [done|].
  cbn [String.rev_app list_ascii_of_string]. rewrite IH, reverse_cons.
  cbn [list_ascii_of_string]. by rewrite <- app_assoc.
Qed.

Lemma list_ascii_rev (s : string) :
  list_ascii_of_string (String.rev s) = reverse (list_ascii_of_string s).
Proof. unfold String.rev. rewrite list_ascii_rev_app. simpl. by rewrite app_nil_r. Qed.

Lemma split_go_length (sep : ascii) (cur s : string) :
  length (split_go sep cur s)
  = S (length (filter (λ a, a = sep) (list_ascii_of_string s))).
Proof.
  revert cur. induction s as [|a s IH]; intros cur; [done|].
  cbn [split_go list_ascii_of_string]. case_bool_decide as Ha.
  - rewrite filter_cons_True by done. simpl. by rewrite IH.
  - rewrite filter_cons_False by done. apply IH.
Qed.

Lemma split_go_no_sep (sep : ascii) (cur s piece : string) :
  sep ∉ list_ascii_of_string cur →
  piece ∈ split_go sep cur s →
  sep ∉ list_ascii_of_string piece.
Proof.
  revert cur. induction s as [|a s IH]; intros cur Hcur; cbn [split_go].
  - intros ->%list_elem_of_singleton. rewrite list_ascii_rev, elem_of_reverse. done.
  - case_bool_decide as Ha.
    + intros [->|Hin]%elem_of_cons.
      * rewrite list_ascii_rev, elem_of_reverse. done.
      * apply (IH EmptyString); [apply not_elem_of_nil|done].
    + apply IH. cbn [list_ascii_of_string]. apply not_elem_of_cons. split; [congruence|done].
Qed.

Lemma trimStart_suffix (s : string) :
  ∃ spaces, list_ascii_of_string s = spaces ++ list_ascii_of_string (trimStart s).
Proof.
  induction s as [|a s [spaces IH]]; [by exists []|].
  cbn [trimStart]. destruct (Ascii.is_space a).
  - exists (a :: spaces). cbn [list_ascii_of_string]. by rewrite IH.
  - by exists [].
Qed.

Lemma trimStart_head (s : string) (a : ascii) :
  head (list_ascii_of_string (trimStart s)) = Some a → Ascii.is_space a = false.
Proof.
  induction s as [|b s IH]; [done|].
  cbn [trimStart]. destruct (Ascii.is_space b) eqn:Hb; [done|].
  cbn [list_ascii_of_string head]. by intros [= <-].
Qed.

Lemma trim_chars (s : string) (a : ascii) :
  a ∈ list_ascii_of_string (trim s) → a ∈ list_ascii_of_string s.
Proof.
  unfold trim. rewrite list_ascii_rev, elem_of_reverse. intros Ha.
  destruct (trimStart_suffix (String.rev (trimStart s))) as [sp1 H1].
  destruct (trimStart_suffix s) as [sp2 H2].
  rewrite H2, elem_of_app. right.
  apply elem_of_reverse. rewrite <- list_ascii_rev, H1, elem_of_app. by right.
Qed.

Lemma trim_head (s : string) (a : ascii) :
  head (list_ascii_of_string (trim s)) = Some a → Ascii.is_space a = false.
Proof.
  unfold trim. rewrite list_ascii_rev, head_reverse. intros Hlast.
  destruct (trimStart_suffix (String.rev (trimStart s))) as [sp H].
  apply (trimStart_head s). rewrite <- last_reverse, <- list_ascii_rev, H.
  rewrite last_app, Hlast. done.
Qed.

Lemma trim_last (s : string) (a : ascii) :
  last (list_ascii_of_string (trim s)) = Some a → Ascii.is_space a = false.
Proof.
  unfold trim. rewrite list_ascii_rev, last_reverse. apply trimStart_head.
Qed.

(** X27. The tags read from a request are one more than the commas of the
    field; no tag holds a comma, and no tag starts or ends with a white
    space character. *)
Theorem parse_tags_trimmed (tags : string) :
  length (parse_tags tags)
  = S (length (filter (λ a, a = ","%char) (list_ascii_of_string tags)))
  ∧ ∀ tag, tag ∈ parse_tags tags →
      (","%char ∉ list_ascii_of_string tag)
      ∧ (∀ a, head (list_ascii_of_string tag) = Some a → Ascii.is_space a = false)
      ∧ (∀ a, last (list_ascii_of_string tag) = Some a → Ascii.is_space a = false).
Proof.
  unfold parse_tags, split. split.
  - rewrite length_fmap. apply split_go_length.
  - intros tag (piece & -> & Hpiece)%list_elem_of_fmap. split; [|split].
    + intros Hcomma%trim_chars. revert Hcomma.
      eapply split_go_no_sep; [|exact Hpiece]. apply not_elem_of_nil.
    + apply trim_head.
    + apply trim_last.
Qed.
